(** * Concurrent_queue: a blocking, thread-safe FIFO queue

    Verification of [pt::Concurrent_queue<T>] (src/concurrent_queue.hpp).

    The class owns three fields, [deque_], [cv_] and [mutex_].  Every
    method body is embedded statement by statement as a program counter
    of the calling thread; a scheduler interleaves the threads.  The
    standard library primitives the class calls are modelled by their
    specified effect:

    - [std::unique_lock] acquires [mutex_] on construction (the thread
      cannot proceed while another thread owns it) and releases it when
      its scope ends;
    - [cv_.wait (lock, pred)] is [while (!pred ()) wait (lock)], where
      [wait (lock)] atomically releases the mutex and blocks the thread
      on [cv_]; a blocked thread is unblocked by [notify_one] or
      spuriously, and re-acquires the mutex before it goes on;
    - [cv_.wait_for (lock, time, pred)] is
      [wait_until (lock, steady_clock::now () + time, pred)], that is
      [while (!pred ()) if (wait_until (lock, d) == timeout) return pred ();
       return true], where the timed wait is also unblocked once the
      deadline [d] has passed, and reports [timeout] when [d] has passed
      by the time the thread has the mutex again;
    - [cv_.notify_one ()] unblocks one of the threads blocked on [cv_],
      if there is any.

    Durations and the steady clock are integers (milliseconds), negative
    ones included: the representation of [std::chrono::milliseconds] is
    signed.  The clock never goes back.  The deadline is the sum of the
    two in unbounded integers.  The source computes it on 64-bit counts
    of nanoseconds, which overflow for durations beyond about 9.22e12 ms
    in either direction; [in_range] says that nothing overflows, and it is
    a hypothesis wherever a statement depends on the value of a
    deadline. *)

From Stdlib Require Import ZArith Lia.
From stdpp Require Import base option list.

Set Default Proof Using "Type".

(** ** Data model *)

Definition tid := nat.

Section Queue.
Context {T : Type}.

(** The four public methods, with their arguments. *)
Inductive op : Type :=
| OpPush (item : T)          (* void push (const T&) *)
| OpPop                      (* T pop () *)
| OpPopFor (time : Z)        (* std::optional<T> pop (const milliseconds&) *)
| OpClear.                   (* void clear () noexcept *)

(** What a call hands back to its caller. *)
Inductive result : Type :=
| RVoid
| RVal (value : T)
| ROpt (value : option T).

(** Program counters.  The line numbers are those of
    src/concurrent_queue.hpp. *)
Inductive pc : Type :=
| Idle
(* push, lines 82-89 *)
| PushLock (item : T)        (* 84: unique_lock lock{mutex_} *)
| PushBack (item : T)        (* 85: deque_.push_back (item) *)
| PushUnlock                 (* 86: end of the scope of lock *)
| PushNotify                 (* 87: cv_.notify_one () *)
| PushRet                    (* 89 *)
(* pop (), lines 92-107 *)
| PopLock                    (* 95: unique_lock cv_lock{mutex_} *)
| PopPred                    (* 101: the predicate deque_.size () *)
| PopWait                    (* 101: inside cv_.wait, mutex released *)
| PopFront                   (* 103: value = deque_.front () *)
| PopPopFront (value : T)    (* 104: deque_.pop_front () *)
| PopUnlock (value : T)      (* 105: end of the scope of cv_lock *)
| PopRet (value : T)         (* 106: return value *)
(* pop (time), lines 110-132 *)
| TLock (time : Z)           (* 114: unique_lock cv_lock{mutex_} *)
| TEnter (time : Z)          (* 124: wait_for reads the clock *)
| TPred (deadline : Z)       (* 124: the predicate deque_.size () *)
| TWait (deadline : Z)       (* 124: inside the timed wait, mutex released *)
| TExpired (deadline : Z)    (* 124: timeout reported, return pred () *)
| TFront                     (* 128: value = deque_.front () *)
| TPopFront (value : T)      (* 129: deque_.pop_front () *)
| TUnlock (value : option T) (* 125 or 130: end of the scope of cv_lock *)
| TRet (value : option T)    (* 125: return {} or 131: return value *)
(* clear, lines 135-139 *)
| ClearLock                  (* 136: unique_lock push_lock{mutex_} *)
| ClearClear                 (* 138: deque_.clear () *)
| ClearUnlock                (* 139: end of the scope of push_lock *)
| ClearRet.

(** The object together with the threads that use it and the steady
    clock.  [cv_] lists the threads blocked on the condition variable,
    [mutex_] is the owner of the mutex. *)
Record state : Type := State {
  deque_ : list T;
  cv_ : list tid;
  mutex_ : option tid;
  threads : list pc;
  now : Z
}.

(** Observable events of an execution. *)
Inductive event : Type :=
| EvInv (t : tid) (o : op) (clock : Z) (* a call starts *)
| EvPush (t : tid) (item : T)          (* push_back took effect *)
| EvTake (t : tid) (value : T)         (* pop_front took effect *)
| EvEmpty (t : tid) (deadline clock : Z) (* timed out, deque empty *)
| EvClear (t : tid) (dropped : list T) (* clear took effect *)
| EvRet (t : tid) (r : result).        (* a call returns *)

(** What the scheduler may do next. *)
Inductive action : Type :=
| Invoke (t : tid) (o : op)            (* idle thread t calls a method *)
| Run (t : tid)                        (* t executes its next statement *)
| Notify (t : tid) (w : option tid)    (* t's notify_one unblocks w *)
| Spurious (t : tid)                   (* t is unblocked spuriously *)
| Expire (t : tid)                     (* t's deadline passed: unblocked *)
| Tick (dt : Z).                       (* the clock advances *)

(** ** The operations *)

(** Concurrent_queue () : deque_{} {}, used by [n] idle threads. *)
Definition init (n : nat) : state :=
  State [] [] None (replicate n Idle) 0.

(** The wait predicate [[this] { return deque_.size (); }]: the size
    converted to bool. *)
Definition pred (s : state) : bool := negb (length (deque_ s) =? 0)%nat.

Definition blocked (t : tid) (s : state) : bool := existsb (Nat.eqb t) (cv_ s).

Definition unblock (t : tid) (cv : list tid) : list tid :=
  List.filter (fun u => negb (Nat.eqb t u)) cv.

(** The effect of [notify_one] on the threads blocked on [cv_] when the
    longest waiting one is chosen. *)
Definition notified (cv : list tid) : list tid :=
  match head cv with
  | Some u => unblock u cv
  | None => cv
  end.

Definition entry (o : op) : pc :=
  match o with
  | OpPush item => PushLock item
  | OpPop => PopLock
  | OpPopFor time => TLock time
  | OpClear => ClearLock
  end.

Definition set_pc (t : tid) (p : pc) (s : state) : state :=
  State (deque_ s) (cv_ s) (mutex_ s) (<[t := p]> (threads s)) (now s).

(** Constructing a unique_lock: possible only while the mutex is free. *)
Definition acquire (t : tid) (p : pc) (s : state) : option (state * list event) :=
  match mutex_ s with
  | None => Some (State (deque_ s) (cv_ s) (Some t) (<[t := p]> (threads s)) (now s), [])
  | Some _ => None
  end.

(** Destroying a unique_lock. *)
Definition release (t : tid) (p : pc) (s : state) : state * list event :=
  (State (deque_ s) (cv_ s) None (<[t := p]> (threads s)) (now s), []).

(** The untimed and timed wait: release the mutex and block on cv_. *)
Definition park (t : tid) (p : pc) (s : state) : state * list event :=
  (State (deque_ s) (cv_ s ++ [t]) None (<[t := p]> (threads s)) (now s), []).

(** One statement of thread [t], which is at [p].  [None]: the thread
    cannot move (the mutex is taken, the thread is blocked on [cv_], or
    [front] is called on an empty deque, which has no defined behaviour). *)
Definition run (t : tid) (p : pc) (s : state) : option (state * list event) :=
  match p with
  | Idle => None
  (* push *)
  | PushLock item => acquire t (PushBack item) s
  | PushBack item =>
      Some (State (deque_ s ++ [item]) (cv_ s) (mutex_ s)
                  (<[t := PushUnlock]> (threads s)) (now s), [EvPush t item])
  | PushUnlock => Some (release t PushNotify s)
  | PushNotify => None
  | PushRet => Some (set_pc t Idle s, [EvRet t RVoid])
  (* pop () *)
  | PopLock => acquire t PopPred s
  | PopPred =>
      if pred s then Some (set_pc t PopFront s, [])
      else Some (park t PopWait s)
  | PopWait => if blocked t s then None else acquire t PopPred s
  | PopFront =>
      match deque_ s with
      | [] => None
      | value :: _ => Some (set_pc t (PopPopFront value) s, [])
      end
  | PopPopFront value =>
      Some (State (tail (deque_ s)) (cv_ s) (mutex_ s)
                  (<[t := PopUnlock value]> (threads s)) (now s), [EvTake t value])
  | PopUnlock value => Some (release t (PopRet value) s)
  | PopRet value => Some (set_pc t Idle s, [EvRet t (RVal value)])
  (* pop (time) *)
  | TLock time => acquire t (TEnter time) s
  | TEnter time => Some (set_pc t (TPred (now s + time)) s, [])
  | TPred deadline =>
      if pred s then Some (set_pc t TFront s, [])
      else Some (park t (TWait deadline) s)
  | TWait deadline =>
      if blocked t s then None
      else acquire t (if (deadline <=? now s)%Z then TExpired deadline
                      else TPred deadline) s
  | TExpired deadline =>
      if pred s then Some (set_pc t TFront s, [])
      else Some (set_pc t (TUnlock None) s, [EvEmpty t deadline (now s)])
  | TFront =>
      match deque_ s with
      | [] => None
      | value :: _ => Some (set_pc t (TPopFront value) s, [])
      end
  | TPopFront value =>
      Some (State (tail (deque_ s)) (cv_ s) (mutex_ s)
                  (<[t := TUnlock (Some value)]> (threads s)) (now s), [EvTake t value])
  | TUnlock value => Some (release t (TRet value) s)
  | TRet value => Some (set_pc t Idle s, [EvRet t (ROpt value)])
  (* clear *)
  | ClearLock => acquire t ClearClear s
  | ClearClear =>
      Some (State [] (cv_ s) (mutex_ s)
                  (<[t := ClearUnlock]> (threads s)) (now s), [EvClear t (deque_ s)])
  | ClearUnlock => Some (release t ClearRet s)
  | ClearRet => Some (set_pc t Idle s, [EvRet t RVoid])
  end.

(** One move of the scheduler. *)
Definition step (s : state) (a : action) : option (state * list event) :=
  match a with
  | Invoke t o =>
      match threads s !! t with
      | Some Idle => Some (set_pc t (entry o) s, [EvInv t o (now s)])
      | _ => None
      end
  | Run t =>
      match threads s !! t with
      | Some p => run t p s
      | None => None
      end
  | Notify t w =>
      match threads s !! t, w with
      | Some PushNotify, Some u =>
          if blocked u s
          then Some (State (deque_ s) (unblock u (cv_ s)) (mutex_ s)
                           (<[t := PushRet]> (threads s)) (now s), [])
          else None
      | Some PushNotify, None =>
          match cv_ s with
          | [] => Some (set_pc t PushRet s, [])
          | _ :: _ => None
          end
      | _, _ => None
      end
  | Spurious t =>
      if blocked t s
      then Some (State (deque_ s) (unblock t (cv_ s)) (mutex_ s) (threads s) (now s), [])
      else None
  | Expire t =>
      match threads s !! t with
      | Some (TWait deadline) =>
          if blocked t s && (deadline <=? now s)%Z
          then Some (State (deque_ s) (unblock t (cv_ s)) (mutex_ s) (threads s) (now s), [])
          else None
      | _ => None
      end
  | Tick dt =>
      if (0 <=? dt)%Z
      then Some (State (deque_ s) (cv_ s) (mutex_ s) (threads s) (now s + dt), [])
      else None
  end.

(** An execution: a schedule run from a state, with the events it emits. *)
Fixpoint exec (s : state) (acts : list action) : option (state * list event) :=
  match acts with
  | [] => Some (s, [])
  | a :: acts =>
      match step s a with
      | None => None
      | Some (s1, ev1) =>
          match exec s1 acts with
          | None => None
          | Some (s2, ev2) => Some (s2, ev1 ++ ev2)
          end
      end
  end.

(** ** One thread running alone

    [solo] lets thread [t] finish its call while no other thread moves:
    [t] executes its statements; its [notify_one] unblocks the longest
    waiting thread; when [t] is blocked in a timed wait the clock advances
    to the deadline and the wait expires.  A thread blocked in the untimed
    wait stays blocked, since nobody is there to notify it. *)
Inductive outcome : Type :=
| Returned (s : state) (tr : list event)  (* the call returned *)
| Waiting (s : state) (tr : list event)   (* blocked on cv_, for good *)
| Stuck (s : state) (tr : list event)     (* mutex taken, or undefined *)
| OutOfFuel.

Definition solo_action (t : tid) (p : pc) (s : state) : option action :=
  match p with
  | PushNotify => Some (Notify t (head (cv_ s)))
  | PopWait => if blocked t s then None else Some (Run t)
  | TWait deadline =>
      if blocked t s
      then if (deadline <=? now s)%Z then Some (Expire t)
           else Some (Tick (deadline - now s))
      else Some (Run t)
  | _ => Some (Run t)
  end.

Fixpoint solo (fuel : nat) (t : tid) (s : state) (tr : list event) : outcome :=
  match threads s !! t with
  | None => Stuck s tr
  | Some Idle => Returned s tr
  | Some p =>
      match fuel with
      | O => OutOfFuel
      | S fuel =>
          match solo_action t p s with
          | None => Waiting s tr
          | Some a =>
              match step s a with
              | None => Stuck s tr
              | Some (s', ev) => solo fuel t s' (tr ++ ev)
              end
          end
      end
  end.

(** Thread [t] calls method [o] and runs it alone. *)
Definition call (fuel : nat) (t : tid) (o : op) (s : state) : outcome :=
  match step s (Invoke t o) with
  | None => Stuck s []
  | Some (s', ev) => solo fuel t s' ev
  end.

(** A sequence of calls, each run alone to its end before the next
    starts. *)
Fixpoint run_calls (fuel : nat) (cs : list (tid * op)) (s : state)
    (tr : list event) : outcome :=
  match cs with
  | [] => Returned s tr
  | (t, o) :: cs =>
      match call fuel t o s with
      | Returned s' ev => run_calls fuel cs s' (tr ++ ev)
      | Waiting s' ev => Waiting s' (tr ++ ev)
      | Stuck s' ev => Stuck s' (tr ++ ev)
      | OutOfFuel => OutOfFuel
      end
  end.

(** Either of the two pops: [None] is [pop ()], [Some time] is
    [pop (time)]; and how each hands an item back. *)
Definition pop_op (k : option Z) : op :=
  match k with
  | None => OpPop
  | Some time => OpPopFor time
  end.

Definition pop_result (k : option Z) (value : T) : result :=
  match k with
  | None => RVal value
  | Some _ => ROpt (Some value)
  end.

(** The item a result carries, if any. *)
Definition result_item (r : result) : list T :=
  match r with
  | RVal value | ROpt (Some value) => [value]
  | _ => []
  end.

(** The calls of a producer [t], and of consumers given with the pop
    each one uses. *)
Definition push_by (t : tid) (item : T) : tid * op := (t, OpPush item).
Definition pop_by (c : tid * option Z) : tid * op := (c.1, pop_op c.2).

(** Does the scheduler start a call to clear? *)
Definition calls_clear (a : action) : bool :=
  match a with
  | Invoke _ OpClear => true
  | _ => false
  end.

(** ** Reading a trace *)

(** The results returned, in the order of the returns. *)
Definition results (tr : list event) : list result :=
  flat_map (fun e => match e with EvRet _ r => [r] | _ => [] end) tr.

(** The items pushed, the items handed back by the pops, and the items
    discarded by clear. *)
Definition pushed (tr : list event) : list T :=
  flat_map (fun e => match e with EvPush _ item => [item] | _ => [] end) tr.

Definition popped (tr : list event) : list T :=
  flat_map (fun e => match e with
                     | EvRet _ (RVal value) => [value]
                     | EvRet _ (ROpt (Some value)) => [value]
                     | _ => []
                     end) tr.

Definition dropped (tr : list event) : list T :=
  flat_map (fun e => match e with EvClear _ l => l | _ => [] end) tr.

(** The contents of the deque after a trace that started on the empty
    deque. *)
Definition apply_event (d : list T) (e : event) : list T :=
  match e with
  | EvPush _ item => d ++ [item]
  | EvTake _ _ => tail d
  | EvClear _ _ => []
  | _ => d
  end.

Definition replay (tr : list event) : list T := fold_left apply_event tr [].

(** The events of one thread, cut into the calls that have returned and
    the call in progress. *)
Definition ev_tid (e : event) : tid :=
  match e with
  | EvInv t _ _ | EvPush t _ | EvTake t _ | EvEmpty t _ _
  | EvClear t _ | EvRet t _ => t
  end.

Definition record_event (t : tid) (acc : list (list event) * list event)
    (e : event) : list (list event) * list event :=
  if Nat.eqb (ev_tid e) t then
    match e with
    | EvRet _ _ => (acc.1 ++ [acc.2 ++ [e]], [])
    | _ => (acc.1, acc.2 ++ [e])
    end
  else acc.

Definition history (t : tid) (tr : list event) : list (list event) * list event :=
  fold_left (record_event t) tr ([], []).

Definition completed (t : tid) (tr : list event) : list (list event) :=
  (history t tr).1.

(** ** Invariants *)

(** The program counters at which the thread owns [mutex_]. *)
Definition holds (p : pc) : bool :=
  match p with
  | PushBack _ | PushUnlock
  | PopPred | PopFront | PopPopFront _ | PopUnlock _
  | TEnter _ | TPred _ | TExpired _ | TFront | TPopFront _ | TUnlock _
  | ClearClear | ClearUnlock => true
  | _ => false
  end.

Definition lock_ok (s : state) : Prop :=
  ∀ t p, threads s !! t = Some p → holds p = true ↔ mutex_ s = Some t.

(** What a thread past its wait knows about the deque. *)
Definition front_ok (p : pc) (d : list T) : Prop :=
  match p with
  | PopFront | TFront => d ≠ []
  | PopPopFront value | TPopFront value => head d = Some value
  | _ => True
  end.

Definition fronts_ok (s : state) : Prop :=
  ∀ t p, threads s !! t = Some p → front_ok p (deque_ s).

(** The item a thread has removed from the deque and not yet returned. *)
Definition carried (p : pc) : list T :=
  match p with
  | PopUnlock value | PopRet value
  | TUnlock (Some value) | TRet (Some value) => [value]
  | _ => []
  end.

(** Every take removed the item at the front of a non-empty deque, and
    every timeout was reported on an empty deque, after the deadline. *)
Definition takes_ok (tr : list event) : Prop :=
  ∀ tr1 t value tr2, tr = tr1 ++ EvTake t value :: tr2 →
    ∃ rest, replay tr1 = value :: rest.

Definition empties_ok (tr : list event) : Prop :=
  ∀ tr1 t deadline clock tr2, tr = tr1 ++ EvEmpty t deadline clock :: tr2 →
    replay tr1 = [] ∧ (deadline ≤ clock)%Z.

(** The events of a call that has returned. *)
Inductive call_record (t : tid) : list event → Prop :=
| rec_push item c0 :
    call_record t [EvInv t (OpPush item) c0; EvPush t item; EvRet t RVoid]
| rec_pop value c0 :
    call_record t [EvInv t OpPop c0; EvTake t value; EvRet t (RVal value)]
| rec_pop_for_item time value c0 :
    call_record t [EvInv t (OpPopFor time) c0; EvTake t value;
                   EvRet t (ROpt (Some value))]
| rec_pop_for_none time c0 deadline clock :
    (c0 + time ≤ deadline)%Z → (deadline ≤ clock)%Z →
    call_record t [EvInv t (OpPopFor time) c0; EvEmpty t deadline clock;
                   EvRet t (ROpt None)]
| rec_clear l c0 :
    call_record t [EvInv t OpClear c0; EvClear t l; EvRet t RVoid].

(** The events of the call in progress, by program counter. *)
Inductive pending (t : tid) (clock : Z) : pc → list event → Prop :=
| pend_idle : pending t clock Idle []
| pend_push_lock item c0 :
    pending t clock (PushLock item) [EvInv t (OpPush item) c0]
| pend_push_back item c0 :
    pending t clock (PushBack item) [EvInv t (OpPush item) c0]
| pend_push_unlock item c0 :
    pending t clock PushUnlock [EvInv t (OpPush item) c0; EvPush t item]
| pend_push_notify item c0 :
    pending t clock PushNotify [EvInv t (OpPush item) c0; EvPush t item]
| pend_push_ret item c0 :
    pending t clock PushRet [EvInv t (OpPush item) c0; EvPush t item]
| pend_pop_lock c0 : pending t clock PopLock [EvInv t OpPop c0]
| pend_pop_pred c0 : pending t clock PopPred [EvInv t OpPop c0]
| pend_pop_wait c0 : pending t clock PopWait [EvInv t OpPop c0]
| pend_pop_front c0 : pending t clock PopFront [EvInv t OpPop c0]
| pend_pop_pop_front value c0 :
    pending t clock (PopPopFront value) [EvInv t OpPop c0]
| pend_pop_unlock value c0 :
    pending t clock (PopUnlock value) [EvInv t OpPop c0; EvTake t value]
| pend_pop_ret value c0 :
    pending t clock (PopRet value) [EvInv t OpPop c0; EvTake t value]
| pend_t_lock time c0 :
    (c0 ≤ clock)%Z →
    pending t clock (TLock time) [EvInv t (OpPopFor time) c0]
| pend_t_enter time c0 :
    (c0 ≤ clock)%Z →
    pending t clock (TEnter time) [EvInv t (OpPopFor time) c0]
| pend_t_pred time deadline c0 :
    (c0 + time ≤ deadline)%Z →
    pending t clock (TPred deadline) [EvInv t (OpPopFor time) c0]
| pend_t_wait time deadline c0 :
    (c0 + time ≤ deadline)%Z →
    pending t clock (TWait deadline) [EvInv t (OpPopFor time) c0]
| pend_t_expired time deadline c0 :
    (c0 + time ≤ deadline)%Z → (deadline ≤ clock)%Z →
    pending t clock (TExpired deadline) [EvInv t (OpPopFor time) c0]
| pend_t_front time c0 :
    pending t clock TFront [EvInv t (OpPopFor time) c0]
| pend_t_pop_front time value c0 :
    pending t clock (TPopFront value) [EvInv t (OpPopFor time) c0]
| pend_t_unlock_item time value c0 :
    pending t clock (TUnlock (Some value))
      [EvInv t (OpPopFor time) c0; EvTake t value]
| pend_t_ret_item time value c0 :
    pending t clock (TRet (Some value))
      [EvInv t (OpPopFor time) c0; EvTake t value]
| pend_t_unlock_none time c0 deadline c1 :
    (c0 + time ≤ deadline)%Z → (deadline ≤ c1)%Z →
    pending t clock (TUnlock None)
      [EvInv t (OpPopFor time) c0; EvEmpty t deadline c1]
| pend_t_ret_none time c0 deadline c1 :
    (c0 + time ≤ deadline)%Z → (deadline ≤ c1)%Z →
    pending t clock (TRet None)
      [EvInv t (OpPopFor time) c0; EvEmpty t deadline c1]
| pend_clear_lock c0 : pending t clock ClearLock [EvInv t OpClear c0]
| pend_clear_clear c0 : pending t clock ClearClear [EvInv t OpClear c0]
| pend_clear_unlock l c0 :
    pending t clock ClearUnlock [EvInv t OpClear c0; EvClear t l]
| pend_clear_ret l c0 :
    pending t clock ClearRet [EvInv t OpClear c0; EvClear t l].

Definition pc_of (t : tid) (s : state) : pc := default Idle (threads s !! t).

Definition calls_ok (s : state) (tr : list event) : Prop :=
  ∀ t, Forall (call_record t) (history t tr).1 ∧
       pending t (now s) (pc_of t s) (history t tr).2.

(** No thread is inside clear. *)
Definition in_clear (p : pc) : bool :=
  match p with
  | ClearLock | ClearClear | ClearUnlock | ClearRet => true
  | _ => false
  end.

(** All of it together: what holds of every state an execution from
    [init n] goes through, and of the trace up to it. *)
Record invariant (s : state) (tr : list event) : Prop := Invariant {
  inv_lock : lock_ok s;
  inv_fronts : fronts_ok s;
  inv_replay : deque_ s = replay tr;
  inv_takes : takes_ok tr;
  inv_empties : empties_ok tr;
  inv_items :
    pushed tr ≡ₚ popped tr ++ dropped tr ++ flat_map carried (threads s) ++ deque_ s;
  inv_calls : calls_ok s tr
}.

(** ** More ways to read a state and a trace *)

(** The items removed from the deque, in the order of their removal. *)
Definition taken (tr : list event) : list T :=
  flat_map (fun e => match e with EvTake _ value => [value] | _ => [] end) tr.

(** Did clear take effect at this event? *)
Definition is_clear (e : event) : bool :=
  match e with
  | EvClear _ _ => true
  | _ => false
  end.

(** The program counters inside a wait of the condition variable. *)
Definition waits (p : pc) : bool :=
  match p with
  | PopWait | TWait _ => true
  | _ => false
  end.

(** A thread that is in a call and not blocked on [cv_]. *)
Definition active (t : tid) (s : state) : Prop :=
  ∃ p, threads s !! t = Some p ∧ p ≠ Idle ∧
       (waits p = true → blocked t s = false).

(** The moves of the scheduler that execute a statement of a method. *)
Definition is_statement (a : action) : bool :=
  match a with
  | Run _ | Notify _ _ => true
  | _ => false
  end.

(** The owner of the mutex is a thread inside a critical section. *)
Definition owner_ok (s : state) : Prop :=
  ∀ t, mutex_ s = Some t → ∃ p, threads s !! t = Some p ∧ holds p = true.

(** The arguments of the calls of push, in the order of the calls. *)
Definition push_args (tr : list event) : list T :=
  flat_map (fun e => match e with
                     | EvInv _ (OpPush item) _ => [item]
                     | _ => []
                     end) tr.

(** The argument of a call of push that has not reached push_back. *)
Definition unpushed (p : pc) : list T :=
  match p with
  | PushLock item | PushBack item => [item]
  | _ => []
  end.

(** The counts of std::chrono are 64 bits wide.  A call of pop (time) made
    at [start] ms and over at [finish] ms is in range when the duration in
    nanoseconds and every deadline [wait_for] can compute for it in
    between fit that width (the clock read in nanoseconds is below one
    millisecond more than its value here).  Out of range the sum
    overflows, and what the call does is not what [run] says. *)
Definition int64_max : Z := 9223372036854775807.

Definition in_range (start finish time : Z) : Prop :=
  (0 ≤ start)%Z ∧ (- int64_max ≤ time * 1000000)%Z ∧
  ((finish + 1 + time) * 1000000 ≤ int64_max)%Z.

(** The threads blocked on [cv_] are inside a wait. *)
Definition waiters_ok (s : state) : Prop :=
  ∀ t, blocked t s = true → ∃ p, threads s !! t = Some p ∧ waits p = true.

(** Every clear discarded what the deque held when it took effect. *)
Definition clears_ok (tr : list event) : Prop :=
  ∀ tr1 t l tr2, tr = tr1 ++ EvClear t l :: tr2 → l = replay tr1.

End Queue.

Arguments op : clear implicits.
Arguments result : clear implicits.
Arguments pc : clear implicits.
Arguments state : clear implicits.
Arguments event : clear implicits.
Arguments action : clear implicits.
Arguments outcome : clear implicits.

(** ** The model at work on small inputs *)

Example push_pop_alone :
  call 16 0 OpPop (State [5; 6]%Z [] None [Idle] 0)
  = Returned (State [6]%Z [] None [Idle] 0)
             [EvInv 0 OpPop 0; EvTake 0 5%Z; EvRet 0 (RVal 5%Z)].
Proof. reflexivity. Qed.

Example pop_alone_blocks :
  call 16 0 OpPop (init (T := Z) 1)
  = Waiting (State [] [0] None [PopWait] 0) [EvInv 0 OpPop 0].
Proof. reflexivity. Qed.

Example pop_for_alone_times_out :
  call 16 0 (OpPopFor 100) (init (T := Z) 1)
  = Returned (State [] [] None [Idle] 100)
             [EvInv 0 (OpPopFor 100) 0; EvEmpty 0 100 100; EvRet 0 (ROpt None)].
Proof. reflexivity. Qed.

(** A producer and a consumer: the consumer blocks, the producer pushes
    and notifies, the consumer wakes up and takes the item. *)
Example handoff :
  exec (init (T := Z) 2)
    [Invoke 1 OpPop; Run 1; Run 1; Invoke 0 (OpPush 7%Z); Run 0; Run 0;
     Run 0; Notify 0 (Some 1); Run 0; Run 1; Run 1; Run 1; Run 1; Run 1; Run 1]
  = Some (State [] [] None [Idle; Idle] 0,
          [EvInv 1 OpPop 0; EvInv 0 (OpPush 7%Z) 0; EvPush 0 7%Z; EvRet 0 RVoid;
           EvTake 1 7%Z; EvRet 1 (RVal 7%Z)]).
Proof. reflexivity. Qed.

(** A spurious wake-up on the empty queue: the thread evaluates the
    predicate again and blocks again. *)
Example spurious_wakeup :
  exec (init (T := Z) 1)
    [Invoke 0 OpPop; Run 0; Run 0; Spurious 0; Run 0; Run 0]
  = Some (State [] [0] None [PopWait] 0, [EvInv 0 OpPop 0]).
Proof. reflexivity. Qed.

(** A timed wait expires at 5 ms; before the thread has the mutex back a
    producer pushes 7, at 10 ms; the check made on timeout finds it. *)
Example item_found_on_timeout :
  exec (init (T := Z) 2)
    [Invoke 0 (OpPopFor 5); Run 0; Run 0; Run 0; Tick 10; Expire 0;
     Invoke 1 (OpPush 7%Z); Run 1; Run 1; Run 1; Notify 1 None; Run 1;
     Run 0; Run 0; Run 0; Run 0; Run 0; Run 0]
  = Some (State [] [] None [Idle; Idle] 10,
          [EvInv 0 (OpPopFor 5) 0; EvInv 1 (OpPush 7%Z) 10; EvPush 1 7%Z;
           EvRet 1 RVoid; EvTake 0 7%Z; EvRet 0 (ROpt (Some 7%Z))]).
Proof. reflexivity. Qed.

(** The calls of thread 1 in the trace of [handoff]. *)
Example handoff_calls :
  completed 1
    [EvInv 1 OpPop 0; EvInv 0 (OpPush 7%Z) 0; EvPush 0 7%Z; EvRet 0 RVoid;
     EvTake 1 7%Z; EvRet 1 (RVal 7%Z)]
  = [[EvInv 1 OpPop 0; EvTake 1 7%Z; EvRet 1 (RVal 7%Z)]].
Proof. reflexivity. Qed.

(** ** A thread running alone, step by step *)

Section SoloSteps.
Context {T : Type}.
Implicit Types (s : state T) (t : tid) (x v : T) (tr ev : list (event T)).

Lemma solo_idle fuel t s tr :
  threads s !! t = Some Idle → solo fuel t s tr = Returned s tr.
Proof. intros H. destruct fuel; simpl; rewrite H; reflexivity. Qed.

Lemma solo_next fuel t s tr p a s' ev :
  threads s !! t = Some p → p ≠ Idle →
  solo_action t p s = Some a → step s a = Some (s', ev) →
  solo (S fuel) t s tr = solo fuel t s' (tr ++ ev).
Proof.
  intros Hp Hne Ha Hs. cbn [solo]. rewrite Hp.
  destruct p; try congruence; rewrite Ha, Hs; reflexivity.
Qed.

Lemma solo_waiting fuel t s tr p :
  threads s !! t = Some p → p ≠ Idle →
  solo_action t p s = None → solo (S fuel) t s tr = Waiting s tr.
Proof.
  intros Hp Hne Ha. cbn [solo]. rewrite Hp.
  destruct p; try congruence; rewrite Ha; reflexivity.
Qed.

(** What a thread does alone is an execution of the scheduler. *)
Lemma solo_exec fuel t s tr s' tr' :
  solo fuel t s tr = Returned s' tr' →
  ∃ acts ev, exec s acts = Some (s', ev) ∧ tr' = tr ++ ev.
Proof.
  revert s tr. induction fuel as [|fuel IH]; intros s tr H; cbn [solo] in H.
  all: destruct (threads s !! t) as [p|]; [|discriminate].
  all: destruct p; try discriminate.
  all: try (simplify_eq; exists [], []; rewrite app_nil_r; done).
  all: destruct (solo_action _ _ _) as [a|]; [|discriminate].
  all: destruct (step s a) as [[s1 ev1]|] eqn:Hs; [|discriminate].
  all: apply IH in H as (acts & ev & He & ->).
  all: exists (a :: acts), (ev1 ++ ev); cbn; rewrite Hs, He, app_assoc; done.
Qed.

Lemma call_exec fuel t o s s' tr :
  call fuel t o s = Returned s' tr →
  ∃ acts, exec s (Invoke t o :: acts) = Some (s', tr).
Proof.
  unfold call. intros H.
  destruct (step s (Invoke t o)) as [[s1 ev1]|] eqn:Hs; [|discriminate].
  apply solo_exec in H as (acts & ev & He & ->).
  exists acts. cbn [exec]. rewrite Hs, He. reflexivity.
Qed.


Lemma step_run t s p :
  threads s !! t = Some p → step s (Run t) = run t p s.
Proof. intros H. cbn [step]. rewrite H. reflexivity. Qed.

Lemma blocked_parked t (cv : list tid) :
  existsb (Nat.eqb t) (cv ++ [t]) = true.
Proof.
  rewrite existsb_app. cbn. rewrite Nat.eqb_refl. apply orb_true_iff. tauto.
Qed.

Lemma blocked_unblock t (cv : list tid) :
  existsb (Nat.eqb t) (unblock t cv) = false.
Proof.
  induction cv as [|u cv IH]; [reflexivity|]. cbn.
  destruct (Nat.eqb t u) eqn:E; cbn; [exact IH|]. rewrite E. exact IH.
Qed.

Lemma unblock_parked t (cv : list tid) :
  unblock t (cv ++ [t]) = unblock t cv.
Proof.
  unfold unblock. rewrite List.filter_app. cbn. rewrite Nat.eqb_refl. cbn.
  apply app_nil_r.
Qed.

Lemma exec_cons s a acts :
  exec s (a :: acts)
  = match step s a with
    | None => None
    | Some (s1, ev1) =>
        match exec s1 acts with
        | None => None
        | Some (s2, ev2) => Some (s2, ev1 ++ ev2)
        end
    end.
Proof. reflexivity. Qed.

(** One statement of a schedule, for a thread whose program counter is
    known. *)
Lemma exec_run t s p acts s1 ev1 :
  threads s !! t = Some p → run t p s = Some (s1, ev1) →
  exec s (Run t :: acts)
  = match exec s1 acts with
    | Some (s2, ev2) => Some (s2, ev1 ++ ev2)
    | None => None
    end.
Proof. intros Hp Hr. cbn [exec]. rewrite (step_run _ _ _ Hp), Hr. reflexivity. Qed.

End SoloSteps.

#[local] Arguments solo : simpl never.

(** Evaluation that leaves the lookups and updates of the thread table
    and [solo] folded. *)
Ltac qcbn :=
  cbn -[lookup insert unblock]; unfold set_pc, release, park;
  cbn -[lookup insert unblock].

(** The program counter of the running thread, just updated. *)
Ltac lookup_t :=
  qcbn;
  first [ eassumption
        | apply list_lookup_insert_eq; rewrite ?length_insert; assumption ].

(** One solo step of a thread whose program counter is known. *)
Ltac solo_run :=
  erewrite solo_next;
  [ | lookup_t | discriminate | qcbn; reflexivity
    | erewrite step_run by lookup_t; qcbn; reflexivity ];
  qcbn; rewrite ?list_insert_insert_eq.

Ltac solo_start Hidle :=
  unfold call; cbn [step threads]; rewrite Hidle; qcbn.

Ltac solo_end Hidle :=
  rewrite solo_idle by lookup_t;
  rewrite ?list_insert_insert_eq, (list_insert_id _ _ _ Hidle); reflexivity.

Ltac solo_act tac :=
  erewrite solo_next;
  [ | lookup_t | discriminate | qcbn; tac; reflexivity
    | cbn [step threads]; rewrite ?list_lookup_insert_eq by assumption;
      qcbn; tac; reflexivity ];
  qcbn; rewrite ?list_insert_insert_eq.

Ltac exec_step :=
  erewrite exec_run; [ | lookup_t | qcbn; reflexivity ];
  rewrite ?list_insert_insert_eq.

(** ** What each call does when it runs alone *)

Section Solo.
Context {T : Type}.
Implicit Types (s : state T) (t : tid) (x v : T) (tr ev : list (event T)).

Lemma call_pop_nonempty fuel t s v rest :
  threads s !! t = Some Idle → mutex_ s = None → deque_ s = v :: rest →
  6 ≤ fuel →
  call fuel t OpPop s
  = Returned (State rest (cv_ s) None (threads s) (now s))
             [EvInv t OpPop (now s); EvTake t v; EvRet t (RVal v)].
Proof.
  intros Hidle Hm Hd Hf. destruct s as [d cv m ths nw]; simpl in *; subst.
  pose proof (lookup_lt_Some _ _ _ Hidle) as Hlt.
  do 6 (destruct fuel as [|fuel]; [lia|]).
  solo_start Hidle. do 6 solo_run. solo_end Hidle.
Qed.

Lemma call_pop_empty fuel t s :
  threads s !! t = Some Idle → mutex_ s = None → deque_ s = [] →
  3 ≤ fuel →
  call fuel t OpPop s
  = Waiting (State [] (cv_ s ++ [t]) None (<[t := PopWait]> (threads s)) (now s))
            [EvInv t OpPop (now s)].
Proof.
  intros Hidle Hm Hd Hf. destruct s as [d cv m ths nw]; simpl in *; subst.
  pose proof (lookup_lt_Some _ _ _ Hidle) as Hlt.
  do 3 (destruct fuel as [|fuel]; [lia|]).
  solo_start Hidle. do 2 solo_run.
  erewrite solo_waiting; [reflexivity | lookup_t | discriminate |].
  cbn. rewrite blocked_parked. reflexivity.
Qed.

Lemma call_push fuel t s x :
  threads s !! t = Some Idle → mutex_ s = None → 5 ≤ fuel →
  call fuel t (OpPush x) s
  = Returned (State (deque_ s ++ [x]) (notified (cv_ s)) None (threads s) (now s))
             [EvInv t (OpPush x) (now s); EvPush t x; EvRet t RVoid].
Proof.
  intros Hidle Hm Hf. destruct s as [d cv m ths nw]; simpl in *; subst.
  pose proof (lookup_lt_Some _ _ _ Hidle) as Hlt.
  do 5 (destruct fuel as [|fuel]; [lia|]).
  solo_start Hidle. do 3 solo_run.
  destruct cv as [|u cv].
  - erewrite solo_next;
      [ | lookup_t | discriminate | qcbn; reflexivity
        | cbn [step threads]; rewrite list_lookup_insert_eq by assumption;
          qcbn; reflexivity ].
    qcbn. rewrite ?list_insert_insert_eq. solo_run. solo_end Hidle.
  - erewrite solo_next;
      [ | lookup_t | discriminate | qcbn; reflexivity
        | cbn [step threads]; rewrite list_lookup_insert_eq by assumption;
          qcbn; rewrite Nat.eqb_refl; qcbn; reflexivity ].
    qcbn. rewrite ?list_insert_insert_eq. solo_run.
    rewrite solo_idle by lookup_t.
    rewrite ?list_insert_insert_eq, (list_insert_id _ _ _ Hidle).
    unfold notified. cbn. rewrite Nat.eqb_refl. reflexivity.
Qed.

Lemma call_clear fuel t s :
  threads s !! t = Some Idle → mutex_ s = None → 4 ≤ fuel →
  call fuel t OpClear s
  = Returned (State [] (cv_ s) None (threads s) (now s))
             [EvInv t OpClear (now s); EvClear t (deque_ s); EvRet t RVoid].
Proof.
  intros Hidle Hm Hf. destruct s as [d cv m ths nw]; simpl in *; subst.
  pose proof (lookup_lt_Some _ _ _ Hidle) as Hlt.
  do 4 (destruct fuel as [|fuel]; [lia|]).
  solo_start Hidle. do 4 solo_run. solo_end Hidle.
Qed.

Lemma call_pop_for_nonempty fuel t s time v rest :
  threads s !! t = Some Idle → mutex_ s = None → deque_ s = v :: rest →
  7 ≤ fuel →
  call fuel t (OpPopFor time) s
  = Returned (State rest (cv_ s) None (threads s) (now s))
             [EvInv t (OpPopFor time) (now s); EvTake t v; EvRet t (ROpt (Some v))].
Proof.
  intros Hidle Hm Hd Hf. destruct s as [d cv m ths nw]; simpl in *; subst.
  pose proof (lookup_lt_Some _ _ _ Hidle) as Hlt.
  do 7 (destruct fuel as [|fuel]; [lia|]).
  solo_start Hidle. do 7 solo_run. solo_end Hidle.
Qed.

(** The timed pop alone on the empty queue, as [run] has it: the clock
    advances to the deadline and the wait expires.  This is what the
    source does for a call in range. *)
Lemma call_pop_for_empty fuel t s time :
  threads s !! t = Some Idle → mutex_ s = None → deque_ s = [] →
  9 ≤ fuel →
  call fuel t (OpPopFor time) s
  = Returned (State [] (unblock t (cv_ s)) None (threads s)
                    (Z.max (now s) (now s + time)))
             [EvInv t (OpPopFor time) (now s);
              EvEmpty t (now s + time) (Z.max (now s) (now s + time));
              EvRet t (ROpt None)].
Proof.
  intros Hidle Hm Hd Hf. destruct s as [d cv m ths nw]; simpl in *; subst.
  pose proof (lookup_lt_Some _ _ _ Hidle) as Hlt.
  do 9 (destruct fuel as [|fuel]; [lia|]).
  solo_start Hidle. do 3 solo_run.
  pose proof (blocked_parked t cv) as Hb.
  pose proof (blocked_unblock t (cv ++ [t])) as Hu.
  destruct (Z.leb_spec (nw + time) nw) as [Hle|Hgt].
  - apply Z.leb_le in Hle as Hle'.
    solo_act ltac:(rewrite ?Hb, ?Hle'; qcbn).
    solo_act ltac:(rewrite ?Hu, ?Hle'; qcbn).
    do 3 solo_run.
    rewrite solo_idle by lookup_t.
    rewrite ?list_insert_insert_eq, (list_insert_id _ _ _ Hidle).
    rewrite unblock_parked, Z.max_l by lia. reflexivity.
  - assert (Hgt' : (nw + time <=? nw)%Z = false) by (apply Z.leb_gt; lia).
    assert (Hpos : (0 <=? nw + time - nw)%Z = true) by (apply Z.leb_le; lia).
    assert (Hd : (nw + (nw + time - nw))%Z = (nw + time)%Z) by lia.
    assert (Hrefl : (nw + time <=? nw + time)%Z = true) by (apply Z.leb_le; lia).
    solo_act ltac:(rewrite ?Hb, ?Hgt', ?Hpos; qcbn).
    rewrite Hd.
    solo_act ltac:(rewrite ?Hb, ?Hrefl; qcbn).
    solo_act ltac:(rewrite ?Hu, ?Hrefl; qcbn).
    do 3 solo_run.
    rewrite solo_idle by lookup_t.
    rewrite ?list_insert_insert_eq, (list_insert_id _ _ _ Hidle).
    rewrite unblock_parked, Z.max_r by lia. reflexivity.
Qed.

End Solo.

(** ** Every execution keeps the invariant *)

(** Case analysis on one move of the scheduler. *)
Ltac step_simpl H :=
  cbn -[lookup insert unblock] in H;
  unfold run, acquire, release, park, set_pc in H;
  cbn -[lookup insert unblock] in H.

Ltac step_cases H :=
  match type of H with
  | step ?s ?a = Some _ =>
      let d := fresh "d" in let cv := fresh "cv" in let m := fresh "m" in
      let ths := fresh "ths" in let nw := fresh "nw" in
      destruct s as [d cv m ths nw];
      destruct a as [?t ?o|?t|?t ?w|?t|?t|?dt];
      step_simpl H;
      repeat (case_match; try discriminate);
      step_simpl H;
      repeat (case_match; try discriminate);
      simplify_eq
  end.

(** After a move of thread [t]: is the thread [u] we look at [t] itself
    or another one?  [learn] is run on the lookup of [t] before the
    move, and on that of [u] when it is another thread. *)
Ltac own_lookup learn :=
  match goal with
  | Hp : ?ths !! ?t = Some ?p |- _ =>
      lazymatch goal with
      | Hu : <[t := _]> ths !! _ = Some _ |- _ =>
          learn Hp;
          pose proof (lookup_lt_Some _ _ _ Hp);
          let E := fresh "E" in let Hne := fresh "Hne" in
          match type of Hu with
          | _ !! ?u = _ =>
              destruct (decide (u = t)) as [E|Hne];
              [ subst u; rewrite list_lookup_insert_eq in Hu by assumption;
                simplify_eq
              | rewrite list_lookup_insert_ne in Hu by congruence;
                learn Hu ]
          end
      end
  end.

Section Invariants.
Context {T : Type}.
Implicit Types (s : state T) (t u : tid) (x v : T) (tr ev : list (event T)).
Implicit Types (p q : pc T) (a : action T).

Lemma lock_ok_step s a s' ev :
  lock_ok s → step s a = Some (s', ev) → lock_ok s'.
Proof.
  intros Hlock H. step_cases H.
  all: intros u q Hu; cbn -[lookup insert unblock] in *.
  all: try (exact (Hlock u q Hu)).
  all: own_lookup ltac:(fun Hx => pose proof (Hlock _ _ Hx)).
  all: cbn in *.
  all: try (destruct o; cbn).
  all: intuition congruence.
Qed.

Lemma pred_nonempty (d : list T) : negb (length d =? 0) = true → d ≠ [].
Proof. destruct d; [discriminate | congruence]. Qed.

Lemma fronts_ok_step s a s' ev :
  lock_ok s → fronts_ok s → step s a = Some (s', ev) → fronts_ok s'.
Proof.
  intros Hlock Hf H. step_cases H.
  all: intros u q Hu; cbn -[lookup insert unblock] in *.
  all: try (exact (Hf u q Hu)).
  all: own_lookup ltac:(fun Hx => pose proof (Hlock _ _ Hx); pose proof (Hf _ _ Hx)).
  all: cbn in *; try done.
  all: try (destruct o; done).
  all: try (apply pred_nonempty; assumption).
  all: destruct q; cbn in *; try done; intuition congruence.
Qed.

Lemma replay_snoc tr (e : event T) :
  replay (tr ++ [e]) = apply_event (replay tr) e.
Proof. unfold replay. rewrite fold_left_app. reflexivity. Qed.

Lemma replay_step s tr a s' ev :
  deque_ s = replay tr → step s a = Some (s', ev) →
  deque_ s' = replay (tr ++ ev).
Proof.
  intros Hr H. step_cases H; cbn in *.
  all: rewrite ?app_nil_r, ?replay_snoc; cbn; try congruence.
Qed.

Lemma snoc_split {A} (l l1 l2 : list A) (e x : A) :
  l ++ [e] = l1 ++ x :: l2 →
  (l2 = [] ∧ l = l1 ∧ e = x) ∨ (∃ l2', l2 = l2' ++ [e] ∧ l = l1 ++ x :: l2').
Proof.
  destruct l2 as [|y l2 _] using rev_ind; intros E.
  - apply app_inj_tail in E as [-> ->]. left. done.
  - rewrite app_comm_cons, app_assoc in E.
    apply app_inj_tail in E as [-> ->]. right. eauto.
Qed.

Lemma takes_ok_snoc tr (e : event T) :
  takes_ok tr →
  (∀ t v, e = EvTake t v → ∃ rest, replay tr = v :: rest) →
  takes_ok (tr ++ [e]).
Proof.
  intros Htr He tr1 t v tr2 E.
  apply snoc_split in E as [(_ & -> & ->)|(tr2' & _ & ->)]; eauto.
Qed.

Lemma empties_ok_snoc tr (e : event T) :
  empties_ok tr →
  (∀ t deadline clock, e = EvEmpty t deadline clock →
     replay tr = [] ∧ (deadline ≤ clock)%Z) →
  empties_ok (tr ++ [e]).
Proof.
  intros Htr He tr1 t deadline clock tr2 E.
  apply snoc_split in E as [(_ & -> & ->)|(tr2' & _ & ->)]; eauto.
Qed.

Lemma head_cons (d : list T) v : head d = Some v → ∃ rest, d = v :: rest.
Proof. destruct d; intros; simplify_eq/=; eauto. Qed.

Lemma takes_ok_step s tr a s' ev :
  fronts_ok s → deque_ s = replay tr → takes_ok tr →
  step s a = Some (s', ev) → takes_ok (tr ++ ev).
Proof.
  intros Hf Hr Htr H. step_cases H; cbn in *.
  all: rewrite ?app_nil_r; try assumption.
  all: apply takes_ok_snoc; [assumption|]; intros ? ? E; simplify_eq.
  all: match goal with
       | Hp : _ !! _ = Some _ |- _ => specialize (Hf _ _ Hp); cbn in Hf
       end.
  all: apply head_cons in Hf; assumption.
Qed.

Lemma pred_empty (d : list T) : negb (length d =? 0) = false → d = [].
Proof. destruct d; [reflexivity | discriminate]. Qed.

Lemma empties_ok_step s tr a s' ev :
  calls_ok s tr → deque_ s = replay tr → empties_ok tr →
  step s a = Some (s', ev) → empties_ok (tr ++ ev).
Proof.
  intros Hc Hr Htr H. step_cases H; cbn in *.
  all: rewrite ?app_nil_r; try assumption.
  all: apply empties_ok_snoc; [assumption|]; intros ? ? ? E; simplify_eq.
  match goal with
  | Hp : _ !! ?t = Some _ |- _ =>
      destruct (Hc t) as [_ Hpend]; unfold pc_of in Hpend; cbn in Hpend;
      rewrite Hp in Hpend
  end.
  split; [apply pred_empty; assumption|].
  cbn in Hpend. inversion Hpend. assumption.
Qed.

(** The items in the hands of the threads, when one thread moves. *)
Lemma carried_insert (ths : list (pc T)) t p p' :
  ths !! t = Some p →
  ∃ rest, flat_map carried ths ≡ₚ carried p ++ rest ∧
          flat_map carried (<[t := p']> ths) ≡ₚ carried p' ++ rest.
Proof.
  intros Hp. pose proof (lookup_lt_Some _ _ _ Hp) as Hlt.
  exists (flat_map carried (take t ths) ++ flat_map carried (drop (S t) ths)).
  rewrite insert_take_drop by assumption.
  rewrite <- (take_drop_middle ths t p Hp) at 1.
  rewrite !flat_map_app. cbn [flat_map]. split; solve_Permutation.
Qed.

Lemma items_step s tr a s' ev :
  fronts_ok s →
  pushed tr ≡ₚ popped tr ++ dropped tr ++ flat_map carried (threads s) ++ deque_ s →
  step s a = Some (s', ev) →
  pushed (tr ++ ev)
  ≡ₚ popped (tr ++ ev) ++ dropped (tr ++ ev)
     ++ flat_map carried (threads s') ++ deque_ s'.
Proof.
  intros Hf Hi H. step_cases H; cbn -[lookup insert] in *.
  all: rewrite ?app_nil_r; try assumption.
  all: match goal with
       | Hp : _ !! _ = Some ?p |- context [<[_ := ?p']> _] =>
           let rest := fresh "rest" in
           let E1 := fresh "E" in let E2 := fresh "E" in
           destruct (carried_insert _ _ _ p' Hp) as (rest & E1 & E2);
           specialize (Hf _ _ Hp); cbn in Hf;
           unfold pushed, popped, dropped in *; rewrite ?flat_map_app;
           rewrite E2, Hi, E1; cbn
       end.
  all: try (destruct o; cbn).
  all: try (apply head_cons in Hf as [? ->]; cbn).
  all: rewrite ?app_nil_r; try solve_Permutation.
Qed.

Lemma history_snoc t tr (e : event T) :
  history t (tr ++ [e]) = record_event t (history t tr) e.
Proof. unfold history. rewrite fold_left_app. reflexivity. Qed.

Lemma history_other t tr (e : event T) :
  ev_tid e ≠ t → history t (tr ++ [e]) = history t tr.
Proof.
  intros Hne. rewrite history_snoc. unfold record_event.
  apply Nat.eqb_neq in Hne. rewrite Hne. reflexivity.
Qed.

Lemma pending_mono t c c' p (l : list (event T)) :
  pending t c p l → (c ≤ c')%Z → pending t c' p l.
Proof. intros H Hle. inversion H; subst; econstructor; eauto; lia. Qed.

Lemma calls_ok_step s tr a s' ev :
  calls_ok s tr → step s a = Some (s', ev) → calls_ok s' (tr ++ ev).
Proof.
  intros Hc H. step_cases H.
  all: intros u; destruct (Hc u) as [Hrec Hpend]; unfold pc_of in *;
       cbn -[lookup insert unblock] in *.
  all: rewrite ?app_nil_r.
  all: try (split; assumption).
  all: try (split; [assumption | eapply pending_mono; [eassumption | lia]]).
  all: match goal with
       | Hp : ?ths !! ?t = Some _ |- _ =>
           pose proof (lookup_lt_Some _ _ _ Hp);
           destruct (decide (u = t)) as [->|Hne];
           [ rewrite list_lookup_insert_eq by assumption; rewrite Hp in Hpend
           | rewrite list_lookup_insert_ne by congruence ]
       end.
  all: cbn [default from_option] in *.
  all: try (split; assumption).
  all: try (rewrite history_other by (cbn; congruence); split; assumption).
  all: rewrite ?history_snoc; unfold record_event; cbn [ev_tid];
       rewrite ?Nat.eqb_refl.
  all: rewrite ?Z.leb_le in *.
  all: destruct (history t tr) as [recs pend]; cbn [fst snd] in *.
  all: inversion Hpend; subst; cbn [app].
  all: split; [try assumption | try (destruct o); try (econstructor; eauto; lia)].
  all: apply Forall_app; split; [assumption|].
  all: repeat constructor; assumption.
Qed.

Lemma invariant_init n : invariant (init (T := T) n) [].
Proof.
  split; cbn.
  - intros t p Hp. apply lookup_replicate in Hp as [-> _]. done.
  - intros t p Hp. apply lookup_replicate in Hp as [-> _]. done.
  - reflexivity.
  - intros [|] ? ? ? ?; discriminate.
  - intros [|] ? ? ? ? ?; discriminate.
  - induction n; [reflexivity | assumption].
  - intros t. unfold pc_of. cbn.
    destruct (replicate n Idle !! t) as [p|] eqn:Hp; cbn.
    + apply lookup_replicate in Hp as [-> _]. split; constructor.
    + split; constructor.
Qed.

Lemma invariant_step s tr a s' ev :
  invariant s tr → step s a = Some (s', ev) → invariant s' (tr ++ ev).
Proof.
  intros [] H. split.
  - eapply lock_ok_step; eassumption.
  - eapply fronts_ok_step; eassumption.
  - eapply replay_step; eassumption.
  - eapply takes_ok_step; eassumption.
  - eapply empties_ok_step; eassumption.
  - eapply items_step; eassumption.
  - eapply calls_ok_step; eassumption.
Qed.

Lemma invariant_exec_from acts s tr s' ev :
  invariant s tr → exec s acts = Some (s', ev) → invariant s' (tr ++ ev).
Proof.
  revert s tr s' ev. induction acts as [|a acts IH]; intros s tr s' ev Hinv H.
  - cbn in H. simplify_eq. rewrite app_nil_r. assumption.
  - cbn in H. destruct (step s a) as [[s1 ev1]|] eqn:Hs; [|discriminate].
    destruct (exec s1 acts) as [[s2 ev2]|] eqn:He; [|discriminate].
    simplify_eq. rewrite app_assoc. eapply IH; [|eassumption].
    eapply invariant_step; eassumption.
Qed.

Lemma invariant_exec n acts s tr :
  exec (init n) acts = Some (s, tr) → invariant s tr.
Proof.
  intros H. change tr with ([] ++ tr).
  eapply invariant_exec_from; [apply invariant_init | eassumption].
Qed.

(** What one move of the scheduler does to the deque. *)
Lemma step_frame s a s' ev :
  fronts_ok s → step s a = Some (s', ev) →
  match ev with
  | [EvPush _ x] => deque_ s' = deque_ s ++ [x]
  | [EvTake _ v] => deque_ s = v :: deque_ s'
  | [EvClear _ l] => l = deque_ s ∧ deque_ s' = []
  | _ => deque_ s' = deque_ s
  end.
Proof.
  intros Hf H. step_cases H; cbn in *; try done.
  all: match goal with
       | Hp : _ !! _ = Some _ |- _ => specialize (Hf _ _ Hp); cbn in Hf
       end.
  all: apply head_cons in Hf as [rest ->]; reflexivity.
Qed.

(** Without a call to clear nothing is discarded. *)
Lemma no_clear_step s tr a s' ev :
  calls_clear a = false →
  (∀ t p, threads s !! t = Some p → in_clear p = false) →
  dropped tr = [] → step s a = Some (s', ev) →
  (∀ t p, threads s' !! t = Some p → in_clear p = false) ∧
  dropped (tr ++ ev) = [].
Proof.
  intros Ha Hnc Hd H. step_cases H; cbn -[lookup insert unblock] in *.
  all: try discriminate.
  all: try match goal with
       | Hp : _ !! _ = Some _ |- _ => pose proof (Hnc _ _ Hp); try discriminate
       end.
  all: unfold dropped in *; rewrite ?flat_map_app, ?Hd; cbn.
  all: split; [|reflexivity].
  all: try assumption.
  all: intros u q Hu.
  all: own_lookup ltac:(fun Hx => pose proof (Hnc _ _ Hx)).
  all: try done.
  destruct o; done.
Qed.

Lemma no_clear_exec_from acts s tr s' ev :
  Forall (fun a => calls_clear a = false) acts →
  (∀ t p, threads s !! t = Some p → in_clear p = false) →
  dropped tr = [] → exec s acts = Some (s', ev) →
  dropped (tr ++ ev) = [].
Proof.
  revert s tr s' ev.
  induction acts as [|a acts IH]; intros s tr s' ev Hacts Hnc Hd H.
  - cbn in H. simplify_eq. rewrite app_nil_r. assumption.
  - apply Forall_cons in Hacts as [Ha Hacts]. cbn in H.
    destruct (step s a) as [[s1 ev1]|] eqn:Hs; [|discriminate].
    destruct (exec s1 acts) as [[s2 ev2]|] eqn:He; [|discriminate].
    simplify_eq.
    destruct (no_clear_step _ _ _ _ _ Ha Hnc Hd Hs) as [Hnc1 Hd1].
    rewrite app_assoc. eapply IH; eassumption.
Qed.

Lemma no_clear_exec n acts s tr :
  Forall (fun a => calls_clear a = false) acts →
  exec (init n) acts = Some (s, tr) → dropped tr = [].
Proof.
  intros Hacts H. change tr with ([] ++ tr).
  eapply no_clear_exec_from; [eassumption | | reflexivity | eassumption].
  intros t p Hp. cbn in Hp. apply lookup_replicate in Hp as [-> _]. done.
Qed.

Lemma carried_idle (ths : list (pc T)) :
  (∀ t p, ths !! t = Some p → p = Idle) → flat_map carried ths = [].
Proof.
  induction ths as [|p ths IH]; intros H; [reflexivity|].
  cbn. rewrite (H 0 p eq_refl). cbn. apply IH.
  intros t q Hq. exact (H (S t) q Hq).
Qed.

End Invariants.

(** ** Calls in sequence *)

Section Sequences.
Context {T : Type}.
Implicit Types (s : state T) (t u : tid) (x v : T) (tr ev : list (event T)).

Lemma run_calls_pushes fuel t (ps : list T) cs s tr :
  threads s !! t = Some Idle → mutex_ s = None → cv_ s = [] → 5 ≤ fuel →
  ∃ ev, run_calls fuel (map (push_by t) ps ++ cs) s tr
        = run_calls fuel cs
            (State (deque_ s ++ ps) [] None (threads s) (now s)) (tr ++ ev)
        ∧ results ev = map (fun _ => RVoid) ps.
Proof.
  intros Hidle Hm Hcv Hf. revert s tr Hidle Hm Hcv.
  induction ps as [|x ps IH]; intros s tr Hidle Hm Hcv.
  - exists []. destruct s; cbn in *; subst. rewrite !app_nil_r. done.
  - cbn [map app run_calls push_by]. rewrite call_push by assumption.
    rewrite Hcv. cbn [notified head].
    edestruct (IH (State (deque_ s ++ [x]) [] None (threads s) (now s)))
      as (ev & -> & Hev); [assumption | reflexivity | reflexivity |].
    cbn [deque_ threads now]. rewrite <- !app_assoc. cbn [app].
    eexists. split; [reflexivity|].
    unfold results in *. cbn. rewrite Hev. reflexivity.
Qed.

Lemma run_calls_pops fuel (pops : list (tid * option Z)) (vs rest : list T) s tr :
  Forall (fun c => threads s !! c.1 = Some Idle) pops →
  mutex_ s = None → deque_ s = vs ++ rest → length pops = length vs →
  7 ≤ fuel →
  ∃ ev, run_calls fuel (map pop_by pops) s tr
        = Returned (State rest (cv_ s) None (threads s) (now s)) (tr ++ ev)
        ∧ results ev = zip_with (fun v c => pop_result c.2 v) vs pops.
Proof.
  intros Hidle Hm Hd Hlen Hf. revert vs s tr Hidle Hm Hd Hlen.
  induction pops as [|[u k] pops IH]; intros vs s tr Hidle Hm Hd Hlen.
  - destruct vs; [|discriminate]. exists []. cbn in *.
    destruct s; cbn in *; subst. rewrite app_nil_r. done.
  - destruct vs as [|v vs]; [discriminate|].
    apply Forall_cons in Hidle as [Hu Hidle]. cbn in Hu, Hd, Hlen.
    cbn [map run_calls pop_by fst snd].
    assert (∃ e1, call fuel u (pop_op k) s
                  = Returned (State (vs ++ rest) (cv_ s) None (threads s) (now s)) e1
                  ∧ results e1 = [pop_result k v]) as (e1 & -> & He1).
    { destruct k as [time|]; cbn [pop_op pop_result].
      - erewrite call_pop_for_nonempty by (eassumption || lia). eauto.
      - erewrite call_pop_nonempty by (eassumption || lia). eauto. }
    edestruct (IH vs (State (vs ++ rest) (cv_ s) None (threads s) (now s)))
      as (ev & -> & Hev); [assumption | reflexivity | reflexivity | lia |].
    cbn [cv_ threads now]. rewrite <- app_assoc.
    eexists. split; [reflexivity|].
    unfold results in *. rewrite flat_map_app, He1, Hev. reflexivity.
Qed.

End Sequences.

(** ** The properties of the queue *)

Section Properties.
Context {T : Type}.
Implicit Types (s : state T) (t u : tid) (x v : T) (tr ev : list (event T)).

Lemma popped_results tr : popped tr = flat_map result_item (results tr).
Proof.
  induction tr as [|e tr IH]; [reflexivity|].
  unfold popped, results in *. cbn [flat_map]. rewrite flat_map_app, IH.
  destruct e as [| | | | |? [| |[|]]]; reflexivity.
Qed.

Lemma items_of_voids (ps : list T) :
  flat_map result_item (map (fun _ => RVoid (T := T)) ps) = [].
Proof. induction ps; [reflexivity | assumption]. Qed.

Lemma items_of_pops (vs : list T) (pops : list (tid * option Z)) :
  length pops = length vs →
  flat_map result_item (zip_with (fun v c => pop_result c.2 v) vs pops) = vs.
Proof.
  revert pops. induction vs as [|v vs IH]; intros [|[u k] pops] Hlen;
    try discriminate; [reflexivity|].
  cbn. rewrite IH by (cbn in Hlen; lia). destruct k; reflexivity.
Qed.

(** C1. FIFO order: when a producer pushes p1, ..., pn onto an empty queue
    and n pops follow, by any threads and of either kind, every call
    returns and the pops hand back exactly p1, ..., pn, in that order. *)
Theorem fifo_order fuel t (ps : list T) (pops : list (tid * option Z)) s :
  deque_ s = [] → mutex_ s = None → cv_ s = [] →
  threads s !! t = Some Idle →
  Forall (fun c => threads s !! c.1 = Some Idle) pops →
  length pops = length ps → 7 ≤ fuel →
  ∃ tr, run_calls fuel (map (push_by t) ps ++ map pop_by pops) s []
        = Returned s tr
        ∧ results tr = map (fun _ => RVoid) ps
                       ++ zip_with (fun v c => pop_result c.2 v) ps pops
        ∧ popped tr = ps.
Proof.
  intros Hd Hm Hcv Ht Hpops Hlen Hf.
  destruct (run_calls_pushes fuel t ps (map pop_by pops) s [] Ht Hm Hcv)
    as (ev1 & -> & Hev1); [lia|].
  rewrite Hd. cbn [app].
  destruct (run_calls_pops fuel pops ps []
              (State ps [] None (threads s) (now s)) ev1)
    as (ev2 & -> & Hev2); cbn; try done.
  { symmetry. apply app_nil_r. }
  assert (Hres : results (ev1 ++ ev2)
                 = map (fun _ => RVoid) ps
                   ++ zip_with (fun v c => pop_result c.2 v) ps pops).
  { unfold results in *. rewrite flat_map_app, Hev1, Hev2. reflexivity. }
  exists (ev1 ++ ev2). split; [|split].
  - destruct s; cbn in *; subst. reflexivity.
  - exact Hres.
  - rewrite popped_results, Hres, flat_map_app, items_of_voids,
      items_of_pops by assumption. reflexivity.
Qed.

(** The items in the hands of the threads, for any reading of them. *)
Lemma flat_map_insert (f : pc T → list T) (ths : list (pc T)) t p p' :
  ths !! t = Some p →
  ∃ rest, flat_map f ths ≡ₚ f p ++ rest ∧
          flat_map f (<[t := p']> ths) ≡ₚ f p' ++ rest.
Proof.
  intros Hp. pose proof (lookup_lt_Some _ _ _ Hp) as Hlt.
  exists (flat_map f (take t ths) ++ flat_map f (drop (S t) ths)).
  rewrite insert_take_drop by assumption.
  rewrite <- (take_drop_middle ths t p Hp) at 1.
  rewrite !flat_map_app. cbn [flat_map]. split; solve_Permutation.
Qed.

(** The arguments of the calls of push are the items appended to the
    deque and those of the calls that have not appended yet. *)
Lemma args_step s tr a s' ev :
  push_args tr ≡ₚ pushed tr ++ flat_map unpushed (threads s) →
  step s a = Some (s', ev) →
  push_args (tr ++ ev) ≡ₚ pushed (tr ++ ev) ++ flat_map unpushed (threads s').
Proof.
  intros Hi H. step_cases H; cbn -[lookup insert] in *.
  all: rewrite ?app_nil_r; try assumption.
  all: match goal with
       | Hp : _ !! _ = Some ?p |- context [<[_ := ?p']> _] =>
           let rest := fresh "rest" in
           let E1 := fresh "E" in let E2 := fresh "E" in
           destruct (flat_map_insert unpushed _ _ _ p' Hp) as (rest & E1 & E2);
           unfold push_args, pushed in *; rewrite ?flat_map_app;
           rewrite E2, Hi, E1; cbn
       end.
  all: try (destruct o; cbn).
  all: rewrite ?app_nil_r; try solve_Permutation.
Qed.

Lemma args_exec_from acts s tr s' ev :
  push_args tr ≡ₚ pushed tr ++ flat_map unpushed (threads s) →
  exec s acts = Some (s', ev) →
  push_args (tr ++ ev) ≡ₚ pushed (tr ++ ev) ++ flat_map unpushed (threads s').
Proof.
  revert s tr s' ev. induction acts as [|a acts IH]; intros s tr s' ev Hi H.
  - cbn in H. simplify_eq. rewrite app_nil_r. assumption.
  - cbn in H. destruct (step s a) as [[s1 ev1]|] eqn:Hs; [|discriminate].
    destruct (exec s1 acts) as [[s2 ev2]|] eqn:He; [|discriminate].
    simplify_eq. rewrite app_assoc. eapply IH; [|eassumption].
    eapply args_step; eassumption.
Qed.

Lemma unpushed_idle (ths : list (pc T)) :
  (∀ t p, ths !! t = Some p → p = Idle) → flat_map unpushed ths = [].
Proof.
  induction ths as [|p ths IH]; intros H; [reflexivity|].
  cbn. rewrite (H 0 p eq_refl). cbn. apply IH.
  intros t q Hq. exact (H (S t) q Hq).
Qed.

(** C2. No loss, no duplication: in every execution without a call to
    clear, once all calls have returned and the queue is empty, the items
    the pops have returned are the arguments the pushes were called with,
    as multisets: each argument is returned once, nothing else is
    returned, and there are as many returns of an item as calls of
    push. *)
Theorem no_loss_no_duplication n acts s tr :
  exec (init n) acts = Some (s, tr) →
  Forall (fun a => calls_clear a = false) acts →
  (∀ t p, threads s !! t = Some p → p = Idle) →
  deque_ s = [] →
  popped tr ≡ₚ push_args tr ∧ length (popped tr) = length (push_args tr).
Proof.
  intros Hexec Hacts Hidle Hd.
  pose proof (inv_items _ _ (invariant_exec _ _ _ _ Hexec)) as Hi.
  rewrite (no_clear_exec _ _ _ _ Hacts Hexec), (carried_idle _ Hidle), Hd in Hi.
  cbn in Hi. rewrite app_nil_r in Hi.
  assert (Ha : push_args tr ≡ₚ pushed tr).
  { pose proof (args_exec_from acts (init n) [] s tr) as Ha. cbn [app] in Ha.
    rewrite (unpushed_idle _ Hidle), app_nil_r in Ha. apply Ha; [|assumption].
    cbn. rewrite unpushed_idle; [reflexivity|].
    intros t p Hp. apply lookup_replicate in Hp as [-> _]. reflexivity. }
  assert (Hp : popped tr ≡ₚ push_args tr) by (rewrite Ha, Hi; reflexivity).
  split; [exact Hp | apply Permutation_length; exact Hp].
Qed.

(** C3, as the code has it.  A call of the timed pop returns one of two
    results and nothing else.  Either it took the item at the front of
    the deque at one of its checks and returns that item; the last check
    is the one made on timeout, so the item may have arrived after the
    duration had elapsed.  Or it found the deque empty at the check made
    on timeout and returns the empty result, having taken nothing; items
    may have come and gone in between.  For a call in range the empty
    result is returned no earlier than the duration after the call.  And
    the call does return: alone, it returns the front item of a non-empty
    deque and the empty result on an empty one. *)
Theorem pop_for_outcome n acts s tr :
  exec (init n) acts = Some (s, tr) →
  (∀ t time c0 rest,
     (EvInv t (OpPopFor time) c0 :: rest) ∈ completed t tr →
     (∃ v, rest = [EvTake t v; EvRet t (ROpt (Some v))]) ∨
     (∃ deadline clock,
        rest = [EvEmpty t deadline clock; EvRet t (ROpt None)] ∧
        (in_range c0 clock time → (c0 + time ≤ clock)%Z))) ∧
  (∀ tr1 t v tr2, tr = tr1 ++ EvTake t v :: tr2 →
     ∃ rest, replay tr1 = v :: rest) ∧
  (∀ tr1 t deadline clock tr2, tr = tr1 ++ EvEmpty t deadline clock :: tr2 →
     replay tr1 = []) ∧
  (∀ t time fuel, threads s !! t = Some Idle → mutex_ s = None → 9 ≤ fuel →
     ∃ s' ev,
       call fuel t (OpPopFor time) s = Returned s' ev ∧
       results ev = [ROpt (head (deque_ s))] ∧
       taken ev = option_list (head (deque_ s)) ∧
       deque_ s' = tail (deque_ s)).
Proof.
  intros Hexec. pose proof (invariant_exec _ _ _ _ Hexec) as Hinv.
  split; [|split; [|split]].
  - intros t time c0 rest Hin. destruct (inv_calls _ _ Hinv t) as [Hrec _].
    rewrite Forall_forall in Hrec. specialize (Hrec _ Hin).
    inversion Hrec; subst; [left; eauto|].
    right. eexists _, _. split; [reflexivity|]. intros _. lia.
  - exact (inv_takes _ _ Hinv).
  - intros tr1 t deadline clock tr2 E.
    exact (proj1 (inv_empties _ _ Hinv _ _ _ _ _ E)).
  - intros t time fuel Hidle Hm Hf. destruct (deque_ s) as [|v rest] eqn:Hd.
    + rewrite call_pop_for_empty by assumption.
      eexists _, _. split; [reflexivity|]. repeat split; reflexivity.
    + rewrite (call_pop_for_nonempty fuel t s time v rest)
        by (assumption || lia).
      eexists _, _. split; [reflexivity|]. repeat split; reflexivity.
Qed.


(** C5. On a non-empty queue the timed pop removes and returns the front
    item whatever the duration: the call ends by the thread's own
    statements alone, it is never blocked on the condition variable and
    the clock does not advance. *)
Theorem pop_for_nonempty_immediate fuel t s time v rest :
  threads s !! t = Some Idle → mutex_ s = None → deque_ s = v :: rest →
  7 ≤ fuel →
  call fuel t (OpPopFor time) s
  = Returned (State rest (cv_ s) None (threads s) (now s))
             [EvInv t (OpPopFor time) (now s); EvTake t v;
              EvRet t (ROpt (Some v))]
  ∧ exec s (Invoke t (OpPopFor time) :: replicate 7 (Run t))
    = Some (State rest (cv_ s) None (threads s) (now s),
            [EvInv t (OpPopFor time) (now s); EvTake t v;
             EvRet t (ROpt (Some v))]).
Proof.
  intros Hidle Hm Hd Hf. split; [apply call_pop_for_nonempty; assumption|].
  destruct s as [d cv m ths nw];
    cbn [deque_ cv_ mutex_ threads now] in *; subst.
  pose proof (lookup_lt_Some _ _ _ Hidle) as Hlt.
  cbn [replicate]. rewrite exec_cons. cbn [step threads]. rewrite Hidle.
  unfold set_pc; cbn [deque_ cv_ mutex_ threads now entry].
  do 7 exec_step. cbn [exec app].
  rewrite (list_insert_id _ _ _ Hidle). reflexivity.
Qed.

(** C6. clear leaves the queue empty and never fails: whatever the deque
    holds, the call returns, and a timed pop that follows, by any thread
    and with any duration, returns the empty result. *)
Theorem clear_empties fuel t u s time :
  threads s !! t = Some Idle → threads s !! u = Some Idle →
  mutex_ s = None → 9 ≤ fuel →
  call fuel t OpClear s
  = Returned (State [] (cv_ s) None (threads s) (now s))
             [EvInv t OpClear (now s); EvClear t (deque_ s); EvRet t RVoid]
  ∧ ∃ s' tr,
      run_calls fuel [(t, OpClear); (u, OpPopFor time)] s [] = Returned s' tr
      ∧ results tr = [RVoid; ROpt None] ∧ deque_ s' = [].
Proof.
  intros Ht Hu Hm Hf. split; [apply call_clear; (assumption || lia)|].
  cbn [run_calls]. rewrite call_clear by (assumption || lia).
  rewrite call_pop_for_empty by (cbn; (assumption || reflexivity)).
  eexists _, _. split; [reflexivity|]. split; reflexivity.
Qed.

(** C7, as the code has it.  A negative duration is accepted: the
    parameter is a signed duration and the method rejects nothing, so the
    call starts like any other; on a non-empty queue it returns the front
    item. *)
Theorem pop_for_negative fuel t s time :
  threads s !! t = Some Idle → (time < 0)%Z →
  step s (Invoke t (OpPopFor time))
  = Some (set_pc t (TLock time) s, [EvInv t (OpPopFor time) (now s)]) ∧
  (∀ v rest, mutex_ s = None → deque_ s = v :: rest → 7 ≤ fuel →
     call fuel t (OpPopFor time) s
     = Returned (State rest (cv_ s) None (threads s) (now s))
                [EvInv t (OpPopFor time) (now s); EvTake t v;
                 EvRet t (ROpt (Some v))]).
Proof.
  intros Hidle Hneg. split.
  - cbn [step]. rewrite Hidle. reflexivity.
  - intros v rest Hm Hd Hf. apply call_pop_for_nonempty; assumption.
Qed.

(** C8. The untimed pop returns only with an item.  In every execution:
    a pop that has returned handed back the item it took; every item
    taken was at the front of a non-empty deque; a thread that has left
    the wait finds the deque non-empty; a thread blocked in the wait
    cannot move; a thread woken up, for whatever reason, while the deque
    is empty evaluates the predicate again and blocks again; and a pop
    called alone on an empty queue stays blocked. *)
Theorem pop_returns_only_with_item n acts s tr :
  exec (init n) acts = Some (s, tr) →
  (∀ t c0 rest, (EvInv t OpPop c0 :: rest) ∈ completed t tr →
     ∃ v, rest = [EvTake t v; EvRet t (RVal v)]) ∧
  takes_ok tr ∧
  (∀ t, threads s !! t = Some PopFront → deque_ s ≠ []) ∧
  (∀ t, threads s !! t = Some PopWait → blocked t s = true →
     step s (Run t) = None) ∧
  (∀ t, threads s !! t = Some PopWait → blocked t s = false →
     mutex_ s = None → deque_ s = [] →
     exec s [Run t; Run t]
     = Some (State [] (cv_ s ++ [t]) None (threads s) (now s), [])) ∧
  (∀ t fuel, threads s !! t = Some Idle → mutex_ s = None → deque_ s = [] →
     3 ≤ fuel →
     call fuel t OpPop s
     = Waiting (State [] (cv_ s ++ [t]) None (<[t := PopWait]> (threads s)) (now s))
               [EvInv t OpPop (now s)]).
Proof.
  intros Hexec. pose proof (invariant_exec _ _ _ _ Hexec) as Hinv.
  repeat split.
  - intros t c0 rest Hin. destruct (inv_calls _ _ Hinv t) as [Hrec _].
    rewrite Forall_forall in Hrec. specialize (Hrec _ Hin).
    inversion Hrec; subst; eauto.
  - exact (inv_takes _ _ Hinv).
  - intros t Hp. exact (inv_fronts _ _ Hinv t _ Hp).
  - intros t Hp Hb. cbn [step]. rewrite Hp. cbn. rewrite Hb. reflexivity.
  - intros t Hp Hb Hm Hd. destruct s as [d cv m ths nw];
      unfold blocked in Hb; cbn [deque_ cv_ mutex_ threads now] in *; subst.
    pose proof (lookup_lt_Some _ _ _ Hp) as Hlt.
    erewrite exec_run; [ | lookup_t | qcbn; rewrite Hb; reflexivity ].
    exec_step. cbn [exec app].
    rewrite (list_insert_id _ _ _ Hp). reflexivity.
  - intros t fuel Hp Hm Hd Hf. apply call_pop_empty; assumption.
Qed.

(** C9. On a non-empty queue the two pops agree: each returns the front
    item, the timed one wrapped as an optional, and they leave the same
    state behind. *)
Theorem pops_agree fuel t s time v rest :
  threads s !! t = Some Idle → mutex_ s = None → deque_ s = v :: rest →
  7 ≤ fuel →
  ∃ s' tr1 tr2,
    call fuel t OpPop s = Returned s' tr1 ∧
    call fuel t (OpPopFor time) s = Returned s' tr2 ∧
    results tr1 = [RVal v] ∧ results tr2 = [ROpt (Some v)] ∧
    s' = State rest (cv_ s) None (threads s) (now s).
Proof.
  intros Hidle Hm Hd Hf.
  rewrite (call_pop_nonempty fuel t s v rest) by (assumption || lia).
  rewrite (call_pop_for_nonempty fuel t s time v rest) by assumption.
  eexists _, _, _. repeat split; reflexivity.
Qed.

(** C10. Frame property.  In every execution a move of the scheduler
    changes the deque in one of three ways only: push_back appends the
    item at the back, pop_front removes the item at the front, clear
    empties it.  So a call of push keeps every item in its place and adds
    the new one at the back, and a call of either pop that finds an item
    removes the front one and keeps the others in their order. *)
Theorem push_pop_frame n acts s tr :
  exec (init n) acts = Some (s, tr) →
  (∀ a s' ev, step s a = Some (s', ev) →
     match ev with
     | [EvPush _ x] => deque_ s' = deque_ s ++ [x]
     | [EvTake _ v] => deque_ s = v :: deque_ s'
     | [EvClear _ l] => l = deque_ s ∧ deque_ s' = []
     | _ => deque_ s' = deque_ s
     end) ∧
  (∀ fuel t x, threads s !! t = Some Idle → mutex_ s = None → 5 ≤ fuel →
     ∃ s1 tr1, call fuel t (OpPush x) s = Returned s1 tr1 ∧
       deque_ s1 = deque_ s ++ [x] ∧
       (∀ i y, deque_ s !! i = Some y → deque_ s1 !! i = Some y) ∧
       deque_ s1 !! length (deque_ s) = Some x) ∧
  (∀ fuel t k v rest, threads s !! t = Some Idle → mutex_ s = None →
     deque_ s = v :: rest → 7 ≤ fuel →
     ∃ s2 tr2, call fuel t (pop_op k) s = Returned s2 tr2 ∧
       results tr2 = [pop_result k v] ∧ deque_ s2 = rest ∧
       (∀ i, deque_ s2 !! i = deque_ s !! S i)).
Proof.
  intros Hexec. pose proof (invariant_exec _ _ _ _ Hexec) as Hinv.
  split; [|split].
  - intros a s' ev H. exact (step_frame _ _ _ _ (inv_fronts _ _ Hinv) H).
  - intros fuel t x Hidle Hm Hf. rewrite call_push by assumption.
    eexists _, _. split; [reflexivity|]. cbn [deque_].
    split; [reflexivity|]. split.
    + intros i y Hi. apply lookup_app_l_Some. assumption.
    + apply list_lookup_middle. reflexivity.
  - intros fuel t k v rest Hidle Hm Hd Hf.
    assert (∃ tr2, call fuel t (pop_op k) s
                   = Returned (State rest (cv_ s) None (threads s) (now s)) tr2
                   ∧ results tr2 = [pop_result k v]) as (tr2 & -> & Hres).
    { destruct k as [time|]; cbn [pop_op pop_result].
      - erewrite call_pop_for_nonempty by (eassumption || lia). eauto.
      - erewrite call_pop_nonempty by (eassumption || lia). eauto. }
    eexists _, _. split; [reflexivity|]. cbn [deque_].
    rewrite Hd. repeat split; assumption || reflexivity.
Qed.

End Properties.

(** ** The properties at work on concrete runs *)

(** Thread 0 pushes 1, 2, 3; threads 1, 0, 1 pop, the second one with a
    timeout. *)
Lemma fifo_order_witness :
  ∃ tr, run_calls 7 (map (push_by 0) [1; 2; 3]%Z
                     ++ map pop_by [(1, None); (0, Some 5%Z); (1, None)])
                  (init 2) []
        = Returned (init 2) tr
        ∧ results tr = [RVoid; RVoid; RVoid; RVal 1%Z; ROpt (Some 2%Z); RVal 3%Z]
        ∧ popped tr = [1; 2; 3]%Z.
Proof.
  apply (fifo_order 7 0 [1; 2; 3]%Z [(1, None); (0, Some 5%Z); (1, None)] (init 2));
    try reflexivity; try lia.
  repeat constructor.
Defined.

(** Thread 0 pushes 1; threads 1 and 0 call push with 2 and 3 at the same
    time and the 3 gets in first; threads 2, 1 and 2 pop. *)
Lemma no_loss_no_duplication_witness :
  ∃ s tr,
    exec (init (T := Z) 3)
      [Invoke 0 (OpPush 1%Z); Run 0; Run 0; Run 0; Notify 0 None; Run 0;
       Invoke 1 (OpPush 2%Z); Invoke 0 (OpPush 3%Z);
       Run 0; Run 0; Run 0; Run 1; Run 1; Run 1;
       Notify 1 None; Notify 0 None; Run 1; Run 0;
       Invoke 2 OpPop; Run 2; Run 2; Run 2; Run 2; Run 2; Run 2;
       Invoke 1 (OpPopFor 5); Run 1; Run 1; Run 1; Run 1; Run 1; Run 1; Run 1;
       Invoke 2 OpPop; Run 2; Run 2; Run 2; Run 2; Run 2; Run 2]
    = Some (s, tr)
    ∧ push_args tr = [1; 2; 3]%Z ∧ popped tr = [1; 3; 2]%Z
    ∧ popped tr ≡ₚ push_args tr
    ∧ length (popped tr) = length (push_args tr).
Proof.
  eexists _, _.
  match goal with
  | |- ?E ∧ _ => assert (He : E) by (vm_compute; reflexivity)
  end.
  split; [exact He|]. split; [reflexivity|]. split; [reflexivity|].
  apply (no_loss_no_duplication _ _ _ _ He).
  - repeat constructor.
  - intros [|[|[|t]]] p Hp; vm_compute in Hp; congruence.
  - reflexivity.
Defined.

(** Thread 0 pushes 7; thread 1 calls pop (5 ms) twice: the first call
    returns the 7, the second one the empty result, at 5 ms.  A third call
    alone would return the empty result too. *)
Lemma pop_for_outcome_witness :
  ((∃ v, [EvTake 1 7%Z; EvRet 1 (ROpt (Some 7%Z))]
         = [EvTake 1 v; EvRet 1 (ROpt (Some v))]) ∨
   (∃ deadline clock,
      [EvTake 1 7%Z; EvRet 1 (ROpt (Some 7%Z))]
      = [EvEmpty 1 deadline clock; EvRet 1 (ROpt None)] ∧
      (in_range 0 clock 5 → (0 + 5 ≤ clock)%Z))) ∧
  ((∃ v, [EvEmpty 1 5 5; EvRet 1 (ROpt (None (A := Z)))]
         = [EvTake 1 v; EvRet 1 (ROpt (Some v))]) ∨
   (∃ deadline clock,
      [EvEmpty 1 5 5; EvRet 1 (ROpt (None (A := Z)))]
      = [EvEmpty 1 deadline clock; EvRet 1 (ROpt None)] ∧
      (in_range 0 clock 5 → (0 + 5 ≤ clock)%Z))) ∧
  ∃ s' ev,
    call 9 1 (OpPopFor 5) (State (T := Z) [] [] None [Idle; Idle] 5)
    = Returned s' ev ∧
    results ev = [ROpt None] ∧ taken ev = [] ∧ deque_ s' = [].
Proof.
  destruct (pop_for_outcome (T := Z) 2
              [Invoke 0 (OpPush 7%Z); Run 0; Run 0; Run 0; Notify 0 None; Run 0;
               Invoke 1 (OpPopFor 5); Run 1; Run 1; Run 1; Run 1; Run 1; Run 1;
               Run 1;
               Invoke 1 (OpPopFor 5); Run 1; Run 1; Run 1; Tick 5; Expire 1;
               Run 1; Run 1; Run 1; Run 1]
              (State [] [] None [Idle; Idle] 5)
              [EvInv 0 (OpPush 7%Z) 0; EvPush 0 7%Z; EvRet 0 RVoid;
               EvInv 1 (OpPopFor 5) 0; EvTake 1 7%Z; EvRet 1 (ROpt (Some 7%Z));
               EvInv 1 (OpPopFor 5) 0; EvEmpty 1 5 5; EvRet 1 (ROpt None)])
    as (Hrec & _ & _ & Hcall); [reflexivity|].
  split; [|split].
  - apply (Hrec 1 5%Z 0%Z). left.
  - apply (Hrec 1 5%Z 0%Z). right. left.
  - apply (Hcall 1 5%Z 9); reflexivity || lia.
Defined.

(** The results do not depend on the window the way the claim has it.  A
    pop (5 ms) called at 0 returns the item 7 that was pushed at 10 ms:
    its wait had expired and the check made on timeout found the item.
    And a pop (100 ms) called at 0 returns the empty result at 100 ms
    although the item 7 was in the queue at 10 ms: another consumer took
    it first. *)
Lemma pop_for_result_and_window :
  exec (init (T := Z) 2)
    [Invoke 0 (OpPopFor 5); Run 0; Run 0; Run 0; Tick 10; Expire 0;
     Invoke 1 (OpPush 7%Z); Run 1; Run 1; Run 1; Notify 1 None; Run 1;
     Run 0; Run 0; Run 0; Run 0; Run 0; Run 0]
  = Some (State [] [] None [Idle; Idle] 10,
          [EvInv 0 (OpPopFor 5) 0; EvInv 1 (OpPush 7%Z) 10; EvPush 1 7%Z;
           EvRet 1 RVoid; EvTake 0 7%Z; EvRet 0 (ROpt (Some 7%Z))])
  ∧ (0 + 5 < 10)%Z
  ∧ exec (init (T := Z) 3)
      [Invoke 0 (OpPopFor 100); Run 0; Run 0; Run 0; Tick 10;
       Invoke 1 (OpPush 7%Z); Run 1; Run 1; Run 1; Notify 1 (Some 0); Run 1;
       Invoke 2 OpPop; Run 2; Run 2; Run 2; Run 2; Run 2; Run 2;
       Run 0; Run 0; Tick 90; Expire 0; Run 0; Run 0; Run 0; Run 0]
    = Some (State [] [] None [Idle; Idle; Idle] 100,
            [EvInv 0 (OpPopFor 100) 0; EvInv 1 (OpPush 7%Z) 10; EvPush 1 7%Z;
             EvRet 1 RVoid; EvInv 2 OpPop 10; EvTake 2 7%Z; EvRet 2 (RVal 7%Z);
             EvEmpty 0 100 100; EvRet 0 (ROpt None)])
  ∧ (0 ≤ 10 ≤ 0 + 100)%Z.
Proof. repeat split; reflexivity || lia. Qed.


Lemma pop_for_nonempty_immediate_witness :
  call 7 1 (OpPopFor 200) (State [4; 5]%Z [] None [Idle; Idle] 10)
  = Returned (State [5]%Z [] None [Idle; Idle] 10)
             [EvInv 1 (OpPopFor 200) 10; EvTake 1 4%Z; EvRet 1 (ROpt (Some 4%Z))]
  ∧ exec (State [4; 5]%Z [] None [Idle; Idle] 10)
         (Invoke 1 (OpPopFor 200) :: replicate 7 (Run 1))
    = Some (State [5]%Z [] None [Idle; Idle] 10,
            [EvInv 1 (OpPopFor 200) 10; EvTake 1 4%Z;
             EvRet 1 (ROpt (Some 4%Z))]).
Proof.
  apply (pop_for_nonempty_immediate 7 1
           (State [4; 5]%Z [] None [Idle; Idle] 10) 200 4%Z [5]%Z);
    reflexivity || lia.
Defined.

(** Push a, b, c, then clear, then pop (10 ms). *)
Lemma clear_empties_witness :
  call 9 0 OpClear (State [1; 2; 3]%Z [] None [Idle; Idle] 0)
  = Returned (State [] [] None [Idle; Idle] 0)
             [EvInv 0 OpClear 0; EvClear 0 [1; 2; 3]%Z; EvRet 0 RVoid]
  ∧ ∃ s' tr,
      run_calls 9 [(0, OpClear); (1, OpPopFor 10)]
                (State [1; 2; 3]%Z [] None [Idle; Idle] 0) []
      = Returned s' tr
      ∧ results tr = [RVoid; ROpt None] ∧ deque_ s' = [].
Proof.
  apply (clear_empties 9 0 1 (State [1; 2; 3]%Z [] None [Idle; Idle] 0) 10);
    reflexivity || lia.
Defined.

(** A call with the duration -5 ms is accepted and served. *)
Lemma negative_duration_accepted :
  (-5 < 0)%Z ∧
  step (State [7]%Z [] None [Idle] 0) (Invoke 0 (OpPopFor (-5)))
  = Some (State [7]%Z [] None [TLock (-5)] 0, [EvInv 0 (OpPopFor (-5)) 0]) ∧
  call 9 0 (OpPopFor (-5)) (State [7]%Z [] None [Idle] 0)
  = Returned (State [] [] None [Idle] 0)
             [EvInv 0 (OpPopFor (-5)) 0; EvTake 0 7%Z; EvRet 0 (ROpt (Some 7%Z))].
Proof. repeat split. Qed.

Lemma pop_for_negative_witness :
  step (State [7; 8]%Z [] None [Idle] 3) (Invoke 0 (OpPopFor (-5)))
  = Some (State [7; 8]%Z [] None [TLock (-5)] 3, [EvInv 0 (OpPopFor (-5)) 3]) ∧
  call 7 0 (OpPopFor (-5)) (State [7; 8]%Z [] None [Idle] 3)
  = Returned (State [8]%Z [] None [Idle] 3)
             [EvInv 0 (OpPopFor (-5)) 3; EvTake 0 7%Z; EvRet 0 (ROpt (Some 7%Z))].
Proof.
  destruct (pop_for_negative 7 0 (State [7; 8]%Z [] None [Idle] 3) (-5))
    as [Hstep Hcall]; [reflexivity | lia |].
  split; [exact Hstep|].
  apply (Hcall 7%Z [8]%Z); reflexivity || lia.
Defined.

(** Thread 1 is blocked in pop, is woken up spuriously and blocks again;
    then thread 0 pushes 7 and notifies it, and thread 1 returns 7. *)
Lemma pop_returns_only_with_item_witness :
  ∃ v, [EvTake 1 7%Z; EvRet 1 (RVal 7%Z)] = [EvTake 1 v; EvRet 1 (RVal v)].
Proof.
  destruct (pop_returns_only_with_item 2
              [Invoke 1 OpPop; Run 1; Run 1; Spurious 1; Run 1; Run 1;
               Invoke 0 (OpPush 7%Z); Run 0; Run 0; Run 0; Notify 0 (Some 1);
               Run 0; Run 1; Run 1; Run 1; Run 1; Run 1; Run 1]
              (State [] [] None [Idle; Idle] 0)
              [EvInv 1 OpPop 0; EvInv 0 (OpPush 7%Z) 0; EvPush 0 7%Z;
               EvRet 0 RVoid; EvTake 1 7%Z; EvRet 1 (RVal 7%Z)])
    as [H _]; [reflexivity|].
  apply (H 1 0%Z). left.
Defined.

Lemma pops_agree_witness :
  ∃ s' tr1 tr2,
    call 7 0 OpPop (State [4; 5]%Z [] None [Idle] 0) = Returned s' tr1 ∧
    call 7 0 (OpPopFor 30) (State [4; 5]%Z [] None [Idle] 0) = Returned s' tr2 ∧
    results tr1 = [RVal 4%Z] ∧ results tr2 = [ROpt (Some 4%Z)] ∧
    s' = State [5]%Z [] None [Idle] 0.
Proof.
  apply (pops_agree 7 0 (State [4; 5]%Z [] None [Idle] 0) 30 4%Z [5]%Z);
    reflexivity || lia.
Defined.

(** After a push of 7: a push of 9 goes behind the 7, and a pop takes the
    7. *)
Lemma push_pop_frame_witness :
  (∃ s1 tr1,
     call 5 0 (OpPush 9%Z) (State [7]%Z [] None [Idle] 0) = Returned s1 tr1 ∧
     deque_ s1 = [7; 9]%Z ∧
     (∀ i y, [7]%Z !! i = Some y → deque_ s1 !! i = Some y) ∧
     deque_ s1 !! 1 = Some 9%Z) ∧
  (∃ s2 tr2,
     call 7 0 OpPop (State [7]%Z [] None [Idle] 0) = Returned s2 tr2 ∧
     results tr2 = [RVal 7%Z] ∧ deque_ s2 = [] ∧
     (∀ i, deque_ s2 !! i = [7]%Z !! S i)).
Proof.
  destruct (push_pop_frame 1
              [Invoke 0 (OpPush 7%Z); Run 0; Run 0; Run 0; Notify 0 None; Run 0]
              (State [7]%Z [] None [Idle] 0)
              [EvInv 0 (OpPush 7%Z) 0; EvPush 0 7%Z; EvRet 0 RVoid])
    as (_ & Hpush & Hpop); [reflexivity|].
  split.
  - apply (Hpush 5 0 9%Z); reflexivity || lia.
  - apply (Hpop 7 0 None 7%Z []); reflexivity || lia.
Defined.

(** ** Mutual exclusion and progress *)

Section Locking.
Context {T : Type}.
Implicit Types (s : state T) (t u : tid) (x v : T) (tr ev : list (event T)).
Implicit Types (p q : pc T) (a : action T).

Lemma owner_ok_step s a s' ev :
  owner_ok s → step s a = Some (s', ev) → owner_ok s'.
Proof.
  intros Ho H. step_cases H.
  all: intros u Hu; cbn -[lookup insert unblock] in *.
  all: try discriminate.
  all: try (exact (Ho u Hu)).
  all: match goal with
       | Hp : ?ths !! ?t = Some _ |- _ =>
           pose proof (lookup_lt_Some _ _ _ Hp);
           destruct (decide (u = t)) as [->|Hne];
           [ rewrite list_lookup_insert_eq by assumption
           | rewrite list_lookup_insert_ne by congruence ]
       end.
  all: try (simplify_eq; eexists; split; [reflexivity | reflexivity]).
  all: try (simplify_eq; congruence).
  all: try (exact (Ho u Hu)).
  all: destruct (Ho _ Hu) as (q & Hq & Hh).
  all: cbn [threads] in Hq.
  all: match goal with
       | Hp : ?l !! ?i = Some ?p0 |- _ =>
           tryif constr_eq p0 q then fail else (rewrite Hp in Hq; simplify_eq)
       end.
  all: cbn in *; try discriminate.
  all: eexists; split; [reflexivity | reflexivity].
Qed.

Lemma owner_ok_exec_from acts s s' ev :
  owner_ok s → exec s acts = Some (s', ev) → owner_ok s'.
Proof.
  revert s s' ev. induction acts as [|a acts IH]; intros s s' ev Ho H.
  - cbn in H. simplify_eq. assumption.
  - cbn in H. destruct (step s a) as [[s1 ev1]|] eqn:Hs; [|discriminate].
    destruct (exec s1 acts) as [[s2 ev2]|] eqn:He; [|discriminate].
    simplify_eq. eapply IH; [|eassumption]. eapply owner_ok_step; eassumption.
Qed.

Lemma owner_ok_exec n acts s tr :
  exec (init n) acts = Some (s, tr) → owner_ok s.
Proof.
  intros H. eapply owner_ok_exec_from; [|eassumption].
  intros t Ht. discriminate.
Qed.

(** A thread inside a critical section can execute its statement. *)
Lemma holder_runs s t p :
  fronts_ok s → threads s !! t = Some p → holds p = true →
  ∃ s' ev, run t p s = Some (s', ev).
Proof.
  intros Hf Hp Hh. specialize (Hf _ _ Hp).
  destruct p; try discriminate; cbn in *; eauto.
  all: try (destruct (pred s); eauto).
  all: destruct (deque_ s); [congruence | eauto].
Qed.

Lemma blocked_of_unblock u w (cv : list tid) :
  existsb (Nat.eqb u) (unblock w cv) = true → existsb (Nat.eqb u) cv = true.
Proof.
  induction cv as [|z cv IH]; [done|]. cbn.
  destruct (Nat.eqb w z); cbn; intros H.
  - rewrite (IH H). apply orb_true_r.
  - apply orb_true_iff in H as [H|H]; [rewrite H; reflexivity|].
    rewrite (IH H). apply orb_true_r.
Qed.

Lemma waiters_ok_step s a s' ev :
  waiters_ok s → step s a = Some (s', ev) → waiters_ok s'.
Proof.
  intros Hw H. step_cases H.
  all: intros u Hb; unfold blocked in *; cbn -[lookup insert unblock] in *.
  all: try (apply blocked_of_unblock in Hb).
  all: try (rewrite existsb_app in Hb; cbn in Hb; rewrite orb_false_r in Hb;
            apply orb_true_iff in Hb as [Hb|Hb];
            [|apply Nat.eqb_eq in Hb; subst u]).
  all: try (exact (Hw u Hb)).
  all: match goal with
       | Hp : ?ths !! ?t = Some _ |- _ =>
           pose proof (lookup_lt_Some _ _ _ Hp);
           destruct (decide (u = t)) as [->|Hne];
           [ rewrite list_lookup_insert_eq by assumption
           | rewrite list_lookup_insert_ne by congruence; exact (Hw u Hb) ]
       | Hp : ?ths !! ?u0 = Some _ |- context [<[?u0 := _]> _ !! ?u0] =>
           pose proof (lookup_lt_Some _ _ _ Hp);
           rewrite list_lookup_insert_eq by assumption
       end.
  all: try (eexists; split; [reflexivity | reflexivity]).
  all: try congruence.
  all: destruct (Hw _ Hb) as (q & Hq & Hwq); cbn [threads] in Hq.
  all: match goal with
       | Hp : ?l !! ?i = Some ?p0 |- _ =>
           tryif constr_eq p0 q then fail else (rewrite Hp in Hq; simplify_eq)
       end.
  all: cbn in *; try discriminate.
Qed.

Lemma waiters_ok_exec_from acts s s' ev :
  waiters_ok s → exec s acts = Some (s', ev) → waiters_ok s'.
Proof.
  revert s s' ev. induction acts as [|a acts IH]; intros s s' ev Hw H.
  - cbn in H. simplify_eq. assumption.
  - cbn in H. destruct (step s a) as [[s1 ev1]|] eqn:Hs; [|discriminate].
    destruct (exec s1 acts) as [[s2 ev2]|] eqn:He; [|discriminate].
    simplify_eq. eapply IH; [|eassumption]. eapply waiters_ok_step; eassumption.
Qed.

(** X1. Mutual exclusion.  In every execution at most one thread is
    inside a critical section; every move that changes the deque is a
    statement of the owner of the mutex; and push notifies after it has
    released the mutex. *)
Theorem mutual_exclusion n acts s tr :
  exec (init n) acts = Some (s, tr) →
  (∀ t u p q, threads s !! t = Some p → threads s !! u = Some q →
     holds p = true → holds q = true → t = u) ∧
  (∀ a s' ev, step s a = Some (s', ev) → deque_ s' ≠ deque_ s →
     ∃ t, a = Run t ∧ mutex_ s = Some t) ∧
  (∀ t p, threads s !! t = Some p → p = PushNotify ∨ p = PushRet →
     mutex_ s ≠ Some t).
Proof.
  intros Hexec. pose proof (inv_lock _ _ (invariant_exec _ _ _ _ Hexec)) as Hlock.
  split; [|split].
  - intros t u p q Hp Hq Hhp Hhq.
    apply (Hlock _ _ Hp) in Hhp. apply (Hlock _ _ Hq) in Hhq. congruence.
  - intros a s' ev H Hd. step_cases H; cbn in *; try congruence.
    all: match goal with
         | Hp : _ !! ?t = Some _ |- _ =>
             exists t; split; [reflexivity | apply (Hlock _ _ Hp); reflexivity]
         end.
  - intros t p Hp Hor Hm. apply (Hlock _ _ Hp) in Hm.
    destruct Hor; subst; discriminate.
Qed.

(** X2. The owner of the mutex can always execute its next statement: no
    thread blocks inside a critical section.  And when a thread of either
    pop is at front or at pop_front the deque is not empty: the two are
    never called on an empty deque. *)
Theorem lock_holder_moves n acts s tr :
  exec (init n) acts = Some (s, tr) →
  (∀ t, mutex_ s = Some t → ∃ s' ev, step s (Run t) = Some (s', ev)) ∧
  (∀ t p, threads s !! t = Some p →
     p = PopFront ∨ p = TFront ∨
     (∃ v, p = PopPopFront v) ∨ (∃ v, p = TPopFront v) →
     deque_ s ≠ []).
Proof.
  intros Hexec. pose proof (invariant_exec _ _ _ _ Hexec) as Hinv. split.
  - intros t Hm.
    destruct (owner_ok_exec _ _ _ _ Hexec t Hm) as (p & Hp & Hh).
    cbn [step]. rewrite Hp.
    exact (holder_runs _ _ _ (inv_fronts _ _ Hinv) Hp Hh).
  - intros t p Hp Hor. pose proof (inv_fronts _ _ Hinv _ _ Hp) as Hf.
    destruct Hor as [->|[->|[[v ->]|[v ->]]]]; cbn in Hf; try assumption.
    all: intros E; rewrite E in Hf; discriminate.
Qed.

(** X3. No deadlock.  In every execution, as long as some thread is in a
    call and not blocked on the condition variable, some thread can
    execute a statement: the queue can only come to rest with every call
    either returned or waiting in a pop for an item. *)
Theorem no_deadlock n acts s tr t :
  exec (init n) acts = Some (s, tr) → active t s →
  ∃ a s' ev, is_statement a = true ∧ step s a = Some (s', ev).
Proof.
  intros Hexec (p & Hp & Hne & Hw).
  pose proof (invariant_exec _ _ _ _ Hexec) as Hinv.
  destruct (mutex_ s) as [o|] eqn:Hm.
  - destruct (owner_ok_exec _ _ _ _ Hexec o Hm) as (q & Hq & Hh).
    destruct (holder_runs _ _ _ (inv_fronts _ _ Hinv) Hq Hh) as (s' & ev & Hr).
    exists (Run o), s', ev. split; [reflexivity|]. cbn [step]. rewrite Hq. exact Hr.
  - pose proof (inv_lock _ _ Hinv _ _ Hp) as Hl. rewrite Hm in Hl.
    assert (Hh : holds p = false).
    { destruct (holds p); [|reflexivity]. destruct Hl as [Hl _].
      specialize (Hl eq_refl). discriminate. }
    destruct p; try discriminate; try congruence.
    all: try (exists (Run t); eexists _, _; split; [reflexivity|];
              cbn [step]; rewrite Hp; unfold run, acquire; rewrite ?Hm;
              rewrite ?(Hw eq_refl); reflexivity).
    destruct (cv_ s) as [|u cv] eqn:Hcv.
    + exists (Notify t None). eexists _, _. split; [reflexivity|].
      cbn [step]. rewrite Hp, Hcv. reflexivity.
    + exists (Notify t (Some u)). eexists _, _. split; [reflexivity|].
      cbn [step]. rewrite Hp. unfold blocked. rewrite Hcv. cbn.
      rewrite Nat.eqb_refl. reflexivity.
Qed.

(** X13. Only a pop waits on the condition variable.  In every
    execution a thread blocked on it is inside the wait of one of the two
    pops, where it cannot move: push and clear never block on it, and the
    notification of a push can only wake up a consumer. *)
Theorem only_pops_wait n acts s tr t :
  exec (init n) acts = Some (s, tr) → blocked t s = true →
  (threads s !! t = Some PopWait ∨
   ∃ deadline, threads s !! t = Some (TWait deadline)) ∧
  step s (Run t) = None.
Proof.
  intros Hexec Hb.
  assert (Hw : waiters_ok s).
  { eapply waiters_ok_exec_from; [|eassumption]. intros u Hu. discriminate. }
  destruct (Hw t Hb) as (p & Hp & Hwp).
  destruct p; try discriminate.
  - split; [left; assumption|]. cbn [step]. rewrite Hp. cbn. rewrite Hb.
    reflexivity.
  - split; [right; eauto|]. cbn [step]. rewrite Hp. cbn. rewrite Hb.
    reflexivity.
Qed.

End Locking.

(** ** The order of the items *)

Section Order.
Context {T : Type}.
Implicit Types (s : state T) (t u : tid) (x v : T) (tr ev : list (event T)).

Lemma takes_ok_prefix tr1 tr2 : takes_ok (tr1 ++ tr2) → takes_ok tr1.
Proof.
  intros H tr t v tr' ->. apply (H tr t v (tr' ++ tr2)).
  rewrite <- app_assoc. reflexivity.
Qed.

(** Without a clear, what was taken followed by what is left is what was
    pushed. *)
Lemma order_of_trace tr :
  Forall (fun e => is_clear e = false) tr → takes_ok tr →
  taken tr ++ replay tr = pushed tr.
Proof.
  induction tr as [|e tr IH] using rev_ind; intros Hnc Hok; [reflexivity|].
  apply Forall_app in Hnc as [Hnc He]. apply Forall_cons in He as [He _].
  specialize (IH Hnc (takes_ok_prefix _ _ Hok)).
  unfold taken, pushed in *. rewrite replay_snoc, !flat_map_app. cbn.
  destruct e as [? ? ?|? x|t v|? ? ?|? ?|? ?]; cbn in *; rewrite ?app_nil_r;
    try assumption; try discriminate.
  - rewrite <- IH, app_assoc. reflexivity.
  - destruct (Hok tr t v [] eq_refl) as [rest Hr].
    rewrite Hr in *. cbn. rewrite <- IH, <- app_assoc. reflexivity.
Qed.

Lemma replay_after_clear tr1 t l tr2 :
  replay (tr1 ++ EvClear t l :: tr2) = replay (T := T) tr2.
Proof. unfold replay. rewrite fold_left_app. reflexivity. Qed.

Lemma clears_ok_snoc tr (e : event T) :
  clears_ok tr → (∀ t l, e = EvClear t l → l = replay tr) →
  clears_ok (tr ++ [e]).
Proof.
  intros Htr He tr1 t l tr2 E.
  apply snoc_split in E as [(_ & -> & ->)|(tr2' & _ & ->)]; eauto.
Qed.

Lemma clears_ok_step s tr a s' ev :
  deque_ s = replay tr → clears_ok tr → step s a = Some (s', ev) →
  clears_ok (tr ++ ev).
Proof.
  intros Hr Htr H. step_cases H; cbn in *.
  all: rewrite ?app_nil_r; try assumption.
  all: apply clears_ok_snoc; [assumption|]; intros ? ? E; simplify_eq.
  reflexivity.
Qed.

Lemma clears_ok_exec_from acts s tr s' ev :
  invariant s tr → clears_ok tr → exec s acts = Some (s', ev) →
  clears_ok (tr ++ ev).
Proof.
  revert s tr s' ev. induction acts as [|a acts IH]; intros s tr s' ev Hinv Hc H.
  - cbn in H. simplify_eq. rewrite app_nil_r. assumption.
  - cbn in H. destruct (step s a) as [[s1 ev1]|] eqn:Hs; [|discriminate].
    destruct (exec s1 acts) as [[s2 ev2]|] eqn:He; [|discriminate].
    simplify_eq. rewrite app_assoc. eapply IH; [| |eassumption].
    + eapply invariant_step; eassumption.
    + eapply clears_ok_step; [apply (inv_replay _ _ Hinv) | |]; eassumption.
Qed.

Lemma clears_ok_exec n acts s tr :
  exec (init n) acts = Some (s, tr) → clears_ok tr.
Proof.
  intros H. change tr with ([] ++ tr).
  eapply clears_ok_exec_from; [apply invariant_init | | eassumption].
  intros [|] ? ? ? ?; discriminate.
Qed.

(** X4. FIFO order under concurrency.  In every execution in which no
    clear took effect, the items leave the deque in the order in which
    they entered it: the items taken so far, followed by the items still
    in the deque, are the items pushed so far, in the same order. *)
Theorem fifo_concurrent n acts s tr :
  exec (init n) acts = Some (s, tr) →
  Forall (fun e => is_clear e = false) tr →
  taken tr ++ deque_ s = pushed tr.
Proof.
  intros Hexec Hnc. pose proof (invariant_exec _ _ _ _ Hexec) as Hinv.
  rewrite (inv_replay _ _ Hinv).
  apply order_of_trace; [assumption | apply (inv_takes _ _ Hinv)].
Qed.

(** X5. clear cuts the order.  A clear discards exactly the items the
    deque holds when it takes effect; the items taken after the last
    clear, followed by the items in the deque, are the items pushed after
    that clear, in order: no item pushed before a clear is handed out
    after it. *)
Theorem order_after_clear n acts s tr tr1 t l tr2 :
  exec (init n) acts = Some (s, tr) →
  tr = tr1 ++ EvClear t l :: tr2 →
  Forall (fun e => is_clear e = false) tr2 →
  l = replay tr1 ∧ taken tr2 ++ deque_ s = pushed tr2.
Proof.
  intros Hexec -> Hnc. pose proof (invariant_exec _ _ _ _ Hexec) as Hinv.
  split; [exact (clears_ok_exec _ _ _ _ Hexec _ _ _ _ eq_refl)|].
  rewrite (inv_replay _ _ Hinv), replay_after_clear.
  apply order_of_trace; [assumption|].
  intros tr t' v tr' ->.
  destruct (inv_takes _ _ Hinv (tr1 ++ EvClear t l :: tr) t' v tr') as [rest Hr].
  { rewrite <- app_assoc. reflexivity. }
  rewrite replay_after_clear in Hr. eauto.
Qed.

(** X6. Every item is accounted for, with or without clear.  At every
    point of every execution the items returned by pops, the items
    discarded by clear and the items in the deque are, together, among
    the items pushed, each counted once; and when no call is in progress
    they are exactly the items pushed. *)
Theorem items_accounted n acts s tr :
  exec (init n) acts = Some (s, tr) →
  popped tr ++ dropped tr ++ deque_ s ⊆+ pushed tr ∧
  ((∀ t p, threads s !! t = Some p → p = Idle) →
   pushed tr ≡ₚ popped tr ++ dropped tr ++ deque_ s).
Proof.
  intros Hexec. pose proof (inv_items _ _ (invariant_exec _ _ _ _ Hexec)) as Hi.
  split.
  - rewrite Hi. solve_submseteq.
  - intros Hidle. rewrite (carried_idle _ Hidle) in Hi. exact Hi.
Qed.

(** X7. What a returned push and a returned clear did.  In every
    execution a call of push that has returned appended its argument to
    the deque once and did nothing else to it, and a call of clear that
    has returned emptied the deque once; both return nothing. *)
Theorem push_clear_records n acts s tr t c0 rest :
  exec (init n) acts = Some (s, tr) →
  (∀ x, (EvInv t (OpPush x) c0 :: rest) ∈ completed t tr →
     rest = [EvPush t x; EvRet t RVoid]) ∧
  ((EvInv t OpClear c0 :: rest) ∈ completed t tr →
     ∃ l, rest = [EvClear t l; EvRet t RVoid]).
Proof.
  intros Hexec. pose proof (invariant_exec _ _ _ _ Hexec) as Hinv.
  destruct (inv_calls _ _ Hinv t) as [Hrec _].
  rewrite Forall_forall in Hrec.
  split.
  - intros x Hin. specialize (Hrec _ Hin). inversion Hrec; subst; reflexivity.
  - intros Hin. specialize (Hrec _ Hin). inversion Hrec; subst; eauto.
Qed.

End Order.

(** ** Producers, consumers and clear together *)

Section Together.
Context {T : Type}.
Implicit Types (s : state T) (t u : tid) (x v : T) (tr ev : list (event T)).

(** A consumer that was unblocked goes on alone and finds an item. *)
Lemma solo_resume_pop fuel u s v rest tr :
  threads s !! u = Some PopWait → blocked u s = false → mutex_ s = None →
  deque_ s = v :: rest → 6 ≤ fuel →
  solo fuel u s tr
  = Returned (State rest (cv_ s) None (<[u := Idle]> (threads s)) (now s))
             (tr ++ [EvTake u v; EvRet u (RVal v)]).
Proof.
  intros Hp Hb Hm Hd Hf. destruct s as [d cv m ths nw];
    unfold blocked in Hb; cbn [deque_ cv_ mutex_ threads now] in *; subst.
  pose proof (lookup_lt_Some _ _ _ Hp) as Hlt.
  do 6 (destruct fuel as [|fuel]; [lia|]).
  solo_act ltac:(rewrite ?Hp; qcbn; rewrite ?Hb; qcbn).
  do 5 solo_run.
  rewrite solo_idle by lookup_t. rewrite <- !app_assoc. reflexivity.
Qed.

Lemma solo_resume_pop_for fuel u s deadline v rest tr :
  threads s !! u = Some (TWait deadline) → blocked u s = false →
  mutex_ s = None → deque_ s = v :: rest → 6 ≤ fuel →
  solo fuel u s tr
  = Returned (State rest (cv_ s) None (<[u := Idle]> (threads s)) (now s))
             (tr ++ [EvTake u v; EvRet u (ROpt (Some v))]).
Proof.
  intros Hp Hb Hm Hd Hf. destruct s as [d cv m ths nw];
    unfold blocked in Hb; cbn [deque_ cv_ mutex_ threads now] in *; subst.
  pose proof (lookup_lt_Some _ _ _ Hp) as Hlt.
  do 6 (destruct fuel as [|fuel]; [lia|]).
  solo_act ltac:(rewrite ?Hp; qcbn; rewrite ?Hb; qcbn).
  destruct (deadline <=? nw)%Z.
  all: do 5 solo_run.
  all: rewrite solo_idle by lookup_t; rewrite <- !app_assoc; reflexivity.
Qed.

Lemma notified_one u : notified [u] = [].
Proof. unfold notified, unblock. cbn. rewrite Nat.eqb_refl. reflexivity. Qed.

(** X8. A push unblocks a waiting consumer.  A pop called on the empty
    queue blocks and cannot move; a push by another thread returns without
    blocking and notifies it; the consumer then returns the item pushed
    and leaves the queue as it was before the two calls. *)
Theorem push_wakes_pop fuel t u s x :
  t ≠ u → threads s !! t = Some Idle → threads s !! u = Some Idle →
  mutex_ s = None → deque_ s = [] → cv_ s = [] → 6 ≤ fuel →
  ∃ s1 s2,
    call fuel u OpPop s = Waiting s1 [EvInv u OpPop (now s)] ∧
    step s1 (Run u) = None ∧
    call fuel t (OpPush x) s1
    = Returned s2 [EvInv t (OpPush x) (now s); EvPush t x; EvRet t RVoid] ∧
    solo fuel u s2 [] = Returned s [EvTake u x; EvRet u (RVal x)].
Proof.
  intros Hne Ht Hu Hm Hd Hcv Hf.
  destruct s as [d cv m ths nw]; cbn [deque_ cv_ mutex_ threads now] in *; subst.
  pose proof (lookup_lt_Some _ _ _ Hu) as Hlt.
  eexists _, _. split; [|split; [|split]].
  - rewrite call_pop_empty by (assumption || reflexivity || lia). reflexivity.
  - cbn [step threads cv_ app]. rewrite list_lookup_insert_eq by assumption.
    cbn. rewrite Nat.eqb_refl. reflexivity.
  - rewrite call_push;
      [ | cbn; rewrite list_lookup_insert_ne by congruence; assumption
        | reflexivity | lia ].
    cbn [deque_ cv_ threads now app]. rewrite notified_one. reflexivity.
  - rewrite (solo_resume_pop fuel u _ x []);
      [ | cbn; apply list_lookup_insert_eq; assumption
        | reflexivity | reflexivity | reflexivity | assumption ].
    cbn [deque_ cv_ threads now app].
    rewrite list_insert_insert_eq, (list_insert_id _ _ _ Hu). reflexivity.
Qed.

(** X9. A push unblocks a consumer in a timed wait.  For a duration that
    is positive and in range, so that the deadline lies ahead, the
    consumer blocks; a push made before the deadline wakes it up, and it
    returns the item pushed at the time of the push, without waiting for
    its deadline. *)
Theorem push_wakes_pop_for fuel t u s x time :
  t ≠ u → threads s !! t = Some Idle → threads s !! u = Some Idle →
  mutex_ s = None → deque_ s = [] → cv_ s = [] → 6 ≤ fuel →
  (0 < time)%Z → in_range (now s) (now s) time →
  ∃ s1 s2,
    exec s [Invoke u (OpPopFor time); Run u; Run u; Run u]
    = Some (s1, [EvInv u (OpPopFor time) (now s)]) ∧
    threads s1 !! u = Some (TWait (now s + time)) ∧
    step s1 (Run u) = None ∧
    call fuel t (OpPush x) s1
    = Returned s2 [EvInv t (OpPush x) (now s); EvPush t x; EvRet t RVoid] ∧
    solo fuel u s2 [] = Returned s [EvTake u x; EvRet u (ROpt (Some x))].
Proof.
  intros Hne Ht Hu Hm Hd Hcv Hf Htime Hrange.
  destruct s as [d cv m ths nw]; cbn [deque_ cv_ mutex_ threads now] in *; subst.
  pose proof (lookup_lt_Some _ _ _ Hu) as Hlt.
  exists (State [] [u] None (<[u := TWait (nw + time)]> ths) nw).
  eexists. split; [|split; [|split; [|split]]].
  - rewrite exec_cons. cbn [step threads]. rewrite Hu.
    unfold set_pc; cbn [deque_ cv_ mutex_ threads now entry].
    do 3 exec_step. reflexivity.
  - cbn. apply list_lookup_insert_eq. assumption.
  - cbn [step threads cv_]. rewrite list_lookup_insert_eq by assumption.
    cbn. rewrite Nat.eqb_refl. reflexivity.
  - rewrite call_push;
      [ | cbn; rewrite list_lookup_insert_ne by congruence; assumption
        | reflexivity | lia ].
    cbn [deque_ cv_ threads now app]. rewrite notified_one. reflexivity.
  - rewrite (solo_resume_pop_for fuel u _ (nw + time) x []);
      [ | cbn; apply list_lookup_insert_eq; assumption
        | reflexivity | reflexivity | reflexivity | assumption ].
    cbn [deque_ cv_ threads now app].
    rewrite list_insert_insert_eq, (list_insert_id _ _ _ Hu). reflexivity.
Qed.

(** X11. The deadline of the timed pop is fixed once.  A consumer woken
    up before its deadline while the queue is empty blocks again, with the
    same deadline; left alone it returns the empty result when that
    deadline is reached, not a full duration after the wake-up. *)
Theorem pop_for_keeps_deadline fuel t s deadline :
  threads s !! t = Some (TWait deadline) → blocked t s = false →
  mutex_ s = None → deque_ s = [] → (now s < deadline)%Z → 8 ≤ fuel →
  exec s [Run t; Run t]
  = Some (State [] (cv_ s ++ [t]) None (threads s) (now s), []) ∧
  solo fuel t s []
  = Returned (State [] (unblock t (cv_ s)) None (<[t := Idle]> (threads s))
                    deadline)
             [EvEmpty t deadline deadline; EvRet t (ROpt None)].
Proof.
  intros Hp Hb Hm Hd Hlt Hf. destruct s as [d cv m ths nw];
    unfold blocked in Hb; cbn [deque_ cv_ mutex_ threads now] in *; subst.
  pose proof (lookup_lt_Some _ _ _ Hp) as Hlen.
  assert (Hgt : (deadline <=? nw)%Z = false) by (apply Z.leb_gt; lia).
  assert (Hpos : (0 <=? deadline - nw)%Z = true) by (apply Z.leb_le; lia).
  assert (Hsum : (nw + (deadline - nw))%Z = deadline) by lia.
  assert (Hrefl : (deadline <=? deadline)%Z = true) by (apply Z.leb_le; lia).
  pose proof (blocked_parked t cv) as Hbp.
  pose proof (blocked_unblock t (cv ++ [t])) as Hbu.
  split.
  - erewrite exec_run; [ | lookup_t | qcbn; rewrite Hb, Hgt; reflexivity ].
    exec_step. cbn [exec app]. rewrite (list_insert_id _ _ _ Hp). reflexivity.
  - do 8 (destruct fuel as [|fuel]; [lia|]).
    solo_act ltac:(rewrite ?Hp; qcbn; rewrite ?Hb, ?Hgt; qcbn).
    solo_run.
    solo_act ltac:(rewrite ?Hbp, ?Hgt, ?Hpos; qcbn).
    rewrite Hsum.
    solo_act ltac:(rewrite ?Hbp, ?Hrefl; qcbn).
    solo_act ltac:(rewrite ?Hbu, ?Hrefl; qcbn).
    do 3 solo_run.
    rewrite solo_idle by lookup_t. rewrite unblock_parked. reflexivity.
Qed.

(** X12. clear does not wake a blocked consumer, and the consumer never
    sees what was cleared.  With a consumer blocked in pop, clear returns
    and leaves it blocked, whatever the deque held; after a push that
    follows, the consumer returns the item of that push. *)
Theorem clear_keeps_waiters fuel t u s x :
  t ≠ u → threads s !! t = Some Idle → threads s !! u = Some PopWait →
  cv_ s = [u] → mutex_ s = None → 6 ≤ fuel →
  ∃ s1 s2,
    call fuel t OpClear s
    = Returned s1 [EvInv t OpClear (now s); EvClear t (deque_ s); EvRet t RVoid] ∧
    cv_ s1 = [u] ∧ step s1 (Run u) = None ∧
    call fuel t (OpPush x) s1
    = Returned s2 [EvInv t (OpPush x) (now s); EvPush t x; EvRet t RVoid] ∧
    solo fuel u s2 []
    = Returned (State [] [] None (<[u := Idle]> (threads s)) (now s))
               [EvTake u x; EvRet u (RVal x)].
Proof.
  intros Hne Ht Hu Hcv Hm Hf.
  destruct s as [d cv m ths nw]; cbn [deque_ cv_ mutex_ threads now] in *; subst.
  eexists _, _. split; [|split; [|split; [|split]]].
  - rewrite call_clear by (assumption || reflexivity || lia). reflexivity.
  - reflexivity.
  - cbn [step threads]. rewrite Hu. cbn. rewrite Nat.eqb_refl. reflexivity.
  - rewrite call_push by (assumption || reflexivity || lia).
    cbn [deque_ cv_ threads now app]. rewrite notified_one. reflexivity.
  - rewrite (solo_resume_pop fuel u _ x []) by (assumption || reflexivity).
    reflexivity.
Qed.

End Together.

(** ** These properties at work on concrete runs *)

(** Thread 0 is about to push_back: the move that changes the deque is
    its own, and it owns the mutex. *)
Lemma mutual_exclusion_witness :
  ∃ t, Run (T := Z) 0 = Run t ∧ Some 0 = Some t.
Proof.
  destruct (mutual_exclusion 2 [Invoke 0 (OpPush 7%Z); Run 0]
              (State [] [] (Some 0) [PushBack 7%Z; Idle] 0)
              [EvInv 0 (OpPush 7%Z) 0])
    as (_ & H & _); [reflexivity|].
  apply (H (Run 0) (State [7%Z] [] (Some 0) [PushUnlock; Idle] 0)
           [EvPush 0 7%Z]); [reflexivity | discriminate].
Defined.

(** Thread 0 has read the front item, 7, and is about to pop_front. *)
Lemma lock_holder_moves_witness :
  (∃ s' ev,
     step (State [7%Z] [] (Some 0) [PopPopFront 7%Z] 0) (Run 0)
     = Some (s', ev)) ∧
  [7%Z] ≠ [].
Proof.
  destruct (lock_holder_moves 1
              [Invoke 0 (OpPush 7%Z); Run 0; Run 0; Run 0; Notify 0 None; Run 0;
               Invoke 0 OpPop; Run 0; Run 0; Run 0]
              (State [7%Z] [] (Some 0) [PopPopFront 7%Z] 0)
              [EvInv 0 (OpPush 7%Z) 0; EvPush 0 7%Z; EvRet 0 RVoid;
               EvInv 0 OpPop 0])
    as [Hmove Hfront]; [reflexivity|].
  split.
  - apply (Hmove 0). reflexivity.
  - apply (Hfront 0 (PopPopFront 7%Z)); [reflexivity|].
    right. right. left. exists 7%Z. reflexivity.
Defined.

(** Thread 1 is blocked in pop, thread 0 has pushed and is about to
    notify. *)
Lemma no_deadlock_witness :
  ∃ a s' ev,
    is_statement a = true ∧
    step (State [7%Z] [1] None [PushNotify; PopWait] 0) a = Some (s', ev).
Proof.
  apply (no_deadlock 2
           [Invoke 1 OpPop; Run 1; Run 1; Invoke 0 (OpPush 7%Z); Run 0; Run 0;
            Run 0]
           (State [7%Z] [1] None [PushNotify; PopWait] 0)
           [EvInv 1 OpPop 0; EvInv 0 (OpPush 7%Z) 0; EvPush 0 7%Z] 0);
    [reflexivity|].
  exists PushNotify. split; [reflexivity|]. split; [discriminate|].
  intros H. discriminate H.
Defined.

(** Threads 0 and 1 push 7 and 8 at the same time; thread 0 then takes
    the 7. *)
Lemma fifo_concurrent_witness :
  taken [EvInv 0 (OpPush 7%Z) 0; EvPush 0 7%Z; EvInv 1 (OpPush 8%Z) 0;
         EvPush 1 8%Z; EvRet 0 RVoid; EvInv 0 OpPop 0; EvTake 0 7%Z]
  ++ [8%Z]
  = pushed [EvInv 0 (OpPush 7%Z) 0; EvPush 0 7%Z; EvInv 1 (OpPush 8%Z) 0;
            EvPush 1 8%Z; EvRet 0 RVoid; EvInv 0 OpPop 0; EvTake 0 7%Z].
Proof.
  apply (fifo_concurrent 2
           [Invoke 0 (OpPush 7%Z); Run 0; Run 0; Run 0;
            Invoke 1 (OpPush 8%Z); Run 1; Run 1; Run 1; Notify 1 None;
            Notify 0 None; Run 0; Invoke 0 OpPop; Run 0; Run 0; Run 0; Run 0]
           (State [8%Z] [] (Some 0) [PopUnlock 7%Z; PushRet] 0)).
  - reflexivity.
  - repeat constructor.
Defined.

(** Thread 0 pushes 7, thread 1 clears, thread 0 pushes 8. *)
Lemma order_after_clear_witness :
  [7%Z] = replay [EvInv 0 (OpPush 7%Z) 0; EvPush 0 7%Z; EvRet 0 RVoid;
                  EvInv 1 OpClear 0]
  ∧ taken [EvRet 1 RVoid; EvInv 0 (OpPush 8%Z) 0; EvPush 0 8%Z; EvRet 0 RVoid]
    ++ [8%Z]
    = pushed [EvRet 1 RVoid; EvInv 0 (OpPush 8%Z) 0; EvPush 0 8%Z;
              EvRet 0 RVoid].
Proof.
  apply (order_after_clear 2
           [Invoke 0 (OpPush 7%Z); Run 0; Run 0; Run 0; Notify 0 None; Run 0;
            Invoke 1 OpClear; Run 1; Run 1; Run 1; Run 1;
            Invoke 0 (OpPush 8%Z); Run 0; Run 0; Run 0; Notify 0 None; Run 0]
           (State [8%Z] [] None [Idle; Idle] 0)
           ([EvInv 0 (OpPush 7%Z) 0; EvPush 0 7%Z; EvRet 0 RVoid;
             EvInv 1 OpClear 0]
            ++ EvClear 1 [7%Z]
               :: [EvRet 1 RVoid; EvInv 0 (OpPush 8%Z) 0; EvPush 0 8%Z;
                   EvRet 0 RVoid])
           _ 1 [7%Z]).
  - reflexivity.
  - reflexivity.
  - repeat constructor.
Defined.

Lemma items_accounted_witness :
  pushed [EvInv 0 (OpPush 7%Z) 0; EvPush 0 7%Z; EvRet 0 RVoid;
          EvInv 1 OpClear 0; EvClear 1 [7%Z]; EvRet 1 RVoid;
          EvInv 0 (OpPush 8%Z) 0; EvPush 0 8%Z; EvRet 0 RVoid]
  ≡ₚ popped [EvInv 0 (OpPush 7%Z) 0; EvPush 0 7%Z; EvRet 0 RVoid;
             EvInv 1 OpClear 0; EvClear 1 [7%Z]; EvRet 1 RVoid;
             EvInv 0 (OpPush 8%Z) 0; EvPush 0 8%Z; EvRet 0 RVoid]
     ++ dropped [EvInv 0 (OpPush 7%Z) 0; EvPush 0 7%Z; EvRet 0 RVoid;
                 EvInv 1 OpClear 0; EvClear 1 [7%Z]; EvRet 1 RVoid;
                 EvInv 0 (OpPush 8%Z) 0; EvPush 0 8%Z; EvRet 0 RVoid]
     ++ [8%Z].
Proof.
  destruct (items_accounted 2
           [Invoke 0 (OpPush 7%Z); Run 0; Run 0; Run 0; Notify 0 None; Run 0;
            Invoke 1 OpClear; Run 1; Run 1; Run 1; Run 1;
            Invoke 0 (OpPush 8%Z); Run 0; Run 0; Run 0; Notify 0 None; Run 0]
           (State [8%Z] [] None [Idle; Idle] 0)
           [EvInv 0 (OpPush 7%Z) 0; EvPush 0 7%Z; EvRet 0 RVoid;
            EvInv 1 OpClear 0; EvClear 1 [7%Z]; EvRet 1 RVoid;
            EvInv 0 (OpPush 8%Z) 0; EvPush 0 8%Z; EvRet 0 RVoid])
    as [_ H]; [reflexivity|].
  apply H. intros [|[|t]] p Hp; vm_compute in Hp; congruence.
Defined.

Lemma push_clear_records_witness :
  [EvPush 0 8%Z; EvRet 0 (RVoid (T := Z))] = [EvPush 0 8%Z; EvRet 0 RVoid].
Proof.
  destruct (push_clear_records 2
           [Invoke 0 (OpPush 7%Z); Run 0; Run 0; Run 0; Notify 0 None; Run 0;
            Invoke 1 OpClear; Run 1; Run 1; Run 1; Run 1;
            Invoke 0 (OpPush 8%Z); Run 0; Run 0; Run 0; Notify 0 None; Run 0]
           (State [8%Z] [] None [Idle; Idle] 0)
           [EvInv 0 (OpPush 7%Z) 0; EvPush 0 7%Z; EvRet 0 RVoid;
            EvInv 1 OpClear 0; EvClear 1 [7%Z]; EvRet 1 RVoid;
            EvInv 0 (OpPush 8%Z) 0; EvPush 0 8%Z; EvRet 0 RVoid]
           0 0%Z [EvPush 0 8%Z; EvRet 0 RVoid])
    as [H _]; [reflexivity|].
  apply (H 8%Z). right. left.
Defined.

Lemma push_wakes_pop_witness :
  ∃ s1 s2,
    call 6 1 OpPop (init (T := Z) 2) = Waiting s1 [EvInv 1 OpPop 0] ∧
    step s1 (Run 1) = None ∧
    call 6 0 (OpPush 7%Z) s1
    = Returned s2 [EvInv 0 (OpPush 7%Z) 0; EvPush 0 7%Z; EvRet 0 RVoid] ∧
    solo 6 1 s2 [] = Returned (init 2) [EvTake 1 7%Z; EvRet 1 (RVal 7%Z)].
Proof.
  apply (push_wakes_pop 6 0 1 (init (T := Z) 2) 7%Z);
    reflexivity || lia.
Defined.

(** A push at 0 ms unblocks a pop (200 ms), which returns at 0 ms. *)
Lemma push_wakes_pop_for_witness :
  ∃ s1 s2,
    exec (init (T := Z) 2) [Invoke 1 (OpPopFor 200); Run 1; Run 1; Run 1]
    = Some (s1, [EvInv 1 (OpPopFor 200) 0]) ∧
    threads s1 !! 1 = Some (TWait 200) ∧
    step s1 (Run 1) = None ∧
    call 6 0 (OpPush 7%Z) s1
    = Returned s2 [EvInv 0 (OpPush 7%Z) 0; EvPush 0 7%Z; EvRet 0 RVoid] ∧
    solo 6 1 s2 [] = Returned (init 2) [EvTake 1 7%Z; EvRet 1 (ROpt (Some 7%Z))].
Proof.
  apply (push_wakes_pop_for 6 0 1 (init (T := Z) 2) 7%Z 200);
    try (reflexivity || lia).
  unfold in_range, int64_max. cbn. lia.
Defined.

(** A pop (100 ms) called at 0 ms is woken up spuriously at 30 ms: it
    returns at 100 ms. *)
Lemma pop_for_keeps_deadline_witness :
  exec (State (T := Z) [] [] None [TWait 100] 30) [Run 0; Run 0]
  = Some (State [] [0] None [TWait 100] 30, []) ∧
  solo 8 0 (State (T := Z) [] [] None [TWait 100] 30) []
  = Returned (State [] [] None [Idle] 100)
             [EvEmpty 0 100 100; EvRet 0 (ROpt None)].
Proof.
  apply (pop_for_keeps_deadline 8 0 (State (T := Z) [] [] None [TWait 100] 30) 100);
    reflexivity || lia.
Defined.

(** Thread 1 is blocked in pop; thread 2 has pushed 5 and has not
    notified yet; thread 0 clears, then pushes 7. *)
Lemma clear_keeps_waiters_witness :
  ∃ s1 s2,
    call 6 0 OpClear (State [5%Z] [1] None [Idle; PopWait; PushNotify] 0)
    = Returned s1 [EvInv 0 OpClear 0; EvClear 0 [5%Z]; EvRet 0 RVoid] ∧
    cv_ s1 = [1] ∧ step s1 (Run 1) = None ∧
    call 6 0 (OpPush 7%Z) s1
    = Returned s2 [EvInv 0 (OpPush 7%Z) 0; EvPush 0 7%Z; EvRet 0 RVoid] ∧
    solo 6 1 s2 []
    = Returned (State [] [] None [Idle; Idle; PushNotify] 0)
               [EvTake 1 7%Z; EvRet 1 (RVal 7%Z)].
Proof.
  apply (clear_keeps_waiters 6 0 1
           (State [5%Z] [1] None [Idle; PopWait; PushNotify] 0) 7%Z);
    reflexivity || lia.
Defined.

Lemma only_pops_wait_witness :
  ([PushNotify; PopWait] !! 1 = Some (PopWait (T := Z)) ∨
   ∃ deadline, [PushNotify; PopWait] !! 1 = Some (TWait (T := Z) deadline)) ∧
  step (State [7%Z] [1] None [PushNotify; PopWait] 0) (Run 1) = None.
Proof.
  apply (only_pops_wait 2
           [Invoke 1 OpPop; Run 1; Run 1; Invoke 0 (OpPush 7%Z); Run 0; Run 0;
            Run 0]
           (State [7%Z] [1] None [PushNotify; PopWait] 0)
           [EvInv 1 OpPop 0; EvInv 0 (OpPush 7%Z) 0; EvPush 0 7%Z] 1);
    reflexivity.
Defined.
